(** * interactive-classfile: the class-file decoder of [class.go] and the
      hex listing of [classJSON], embedded in Rocq.

    The Go program has two passes over a class file.  [ParseClass] builds the
    model ([Class], fields, methods, code); [parseClass] builds the forest of
    [Section]s (byte ranges with labels) shown by the web page.  Both read
    through [byteParser], a cursor over a [bytes.Reader].

    Conventions of the embedding:
    - a byte buffer is a [list byte]; fixed-width unsigned integers are [Z]
      with their wrap-around written out;
    - Go's [int] is 64 bits wide; every offset and id computed here stays far
      below [2^63], so [int] arithmetic is plain [Z] arithmetic;
    - a run-time panic is the [Panicked] outcome; nothing in this repository
      recovers from one;
    - the package variable [globalId] is threaded as explicit state. *)

From Stdlib Require Import ZArith List Bool Lia.
From Stdlib Require Import Strings.String Strings.Ascii Strings.Byte.
From Stdlib Require Import DecimalString.
From Stdlib Require Import Sorting.Sorted Sorting.Permutation.
Import ListNotations.

Local Open Scope Z_scope.

#[local] Set Warnings "-register-all".

(* ================================================================== *)
(** ** Outcomes: normal return or panic *)

(** The Go [error] values that occur: the two ends of input of [io.ReadFull]
    and the one made by [errors.New] in [newClassDecoder]. *)
Inductive error : Type :=
  | EOF
  | ErrUnexpectedEOF
  | BadMagicNumber.

(** Run-time panics of the Go code. *)
Inductive panic : Type :=
  | SliceBoundsOutOfRange (low len : Z)      (* s[low:] with low > len(s) *)
  | IndexOutOfRange (i len : Z)              (* s[i] with i outside [0,len) *)
  | InterfaceConversion (wanted : string)    (* x.(T) on a value of another type *)
  | LogPanic (msg : string)                  (* log.Panicf *)
  | ExplicitPanic (msg : string).            (* panic(...) *)

Inductive outcome (A : Type) : Type :=
  | Returned (a : A)
  | Panicked (p : panic).

Arguments Returned {A} a.
Arguments Panicked {A} p.

Definition panics {A} (o : outcome A) : Prop := exists p, o = Panicked p.

Definition obind {A B} (o : outcome A) (k : A -> outcome B) : outcome B :=
  match o with
  | Returned a => k a
  | Panicked p => Panicked p
  end.

(** State passing with panics: [St S A] is a Go statement sequence that
    works on a state [S] and yields an [A]. *)
Definition St (S A : Type) : Type := S -> outcome (A * S).

Definition ret {S A} (a : A) : St S A := fun s => Returned (a, s).

Definition bind {S A B} (m : St S A) (k : A -> St S B) : St S B :=
  fun s => match m s with
           | Returned (a, s') => k a s'
           | Panicked p => Panicked p
           end.

Definition lift {S A} (o : outcome A) : St S A :=
  fun s => match o with
           | Returned a => Returned (a, s)
           | Panicked p => Panicked p
           end.

Declare Scope go_scope.
Delimit Scope go_scope with go.
Notation "x <- m ;; k" := (bind m (fun x => k))
  (at level 61, m at next level, right associativity) : go_scope.
Notation "' pat <- m ;; k" := (bind m (fun x => match x with pat => k end))
  (at level 61, pat pattern, m at next level, right associativity) : go_scope.
Notation "m ;;; k" := (bind m (fun _ => k))
  (at level 61, right associativity) : go_scope.

(* ================================================================== *)
(** ** Fixed-width integers and text *)

Definition byte_val (b : byte) : Z := Z.of_N (Byte.to_N b).

Definition uint16 (z : Z) : Z := z mod 65536.
Definition uint32 (z : Z) : Z := z mod 4294967296.

(** [int32(x)] of a [uint32] value: two's complement reading. *)
Definition int32 (z : Z) : Z :=
  if z mod 4294967296 <? 2147483648 then z mod 4294967296
  else z mod 4294967296 - 4294967296.

(** [binary.BigEndian]: most significant byte first. *)
Fixpoint bigEndian (acc : Z) (bs : list byte) : Z :=
  match bs with
  | [] => acc
  | b :: bs' => bigEndian (acc * 256 + byte_val b) bs'
  end.

Definition len {A} (l : list A) : Z := Z.of_nat (List.length l).

(** [%d] and [%v] of an integer. *)
Definition fmt_d (z : Z) : string := NilZero.string_of_int (Z.to_int z).

(** [%v] of a bool. *)
Definition fmt_bool (b : bool) : string :=
  if b then "true"%string else "false"%string.

Definition cat (ss : list string) : string := String.concat EmptyString ss.

Definition dquote : string := String (ascii_of_nat 34) EmptyString.

(* ================================================================== *)
(** ** byteParser: the cursor *)

(** [reader] is the unread rest of the underlying [bytes.Reader].  The reader
    is held through an interface value, so every copy of a [byteParser]
    shares it; [err] is a plain field and belongs to each copy. *)
Record byteParser : Type := mkByteParser {
  reader : list byte;
  err : option error
}.

(** [io.ReadFull] of [n >= 1] bytes from a [bytes.Reader]: with fewer than
    [n] bytes left it takes what is there, leaving the reader at its end, and
    fails with [io.EOF] (nothing read) or [io.ErrUnexpectedEOF]. *)
Definition ReadFull (n : nat) (rd : list byte)
  : list byte * option error * list byte :=
  if (n <=? List.length rd)%nat then (firstn n rd, None, skipn n rd)
  else (rd, Some (match rd with [] => EOF | _ => ErrUnexpectedEOF end), []).

(** [binary.Read(r, binary.BigEndian, &x)] for an [n]-byte unsigned [x]
    declared just before (so [x] is 0 when the read fails). *)
Definition binaryRead (n : nat) (rd : list byte) : Z * option error * list byte :=
  match ReadFull n rd with
  | (bs, None, rd') => (bigEndian 0 bs, None, rd')
  | (_, Some e, rd') => (0, Some e, rd')
  end.

(** The body shared by [u8], [u4], [u2], [u1], run on the method's receiver:
    value returned and receiver at the end of the body. *)
Definition read_body (n : nat) (r : byteParser) : Z * byteParser :=
  match err r with
  | Some _ => (0, r)
  | None =>
      let '(x, e, rd') := binaryRead n (reader r) in
      (x, {| reader := rd'; err := e |})
  end.

(** The four methods are declared on the value type ([func (r byteParser)]):
    the body runs on a copy of the caller's struct.  What the caller sees
    afterwards is its own [err] field, untouched, and the shared reader. *)
Definition by_value (body : byteParser -> Z * byteParser) (r : byteParser)
  : Z * byteParser :=
  let (x, r') := body r in
  (x, {| reader := reader r'; err := err r |}).

Definition u8 : byteParser -> Z * byteParser := by_value (read_body 8).
Definition u4 : byteParser -> Z * byteParser := by_value (read_body 4).
Definition u2 : byteParser -> Z * byteParser := by_value (read_body 2).
Definition u1 : byteParser -> Z * byteParser := by_value (read_body 1).

(** [byteSlice[start:]]. *)
Definition slice_from {A} (s : list A) (start : Z) : outcome (list A) :=
  if (0 <=? start) && (start <=? len s)
  then Returned (skipn (Z.to_nat start) s)
  else Panicked (SliceBoundsOutOfRange start (len s)).

Definition newByteParser (byteSlice : list byte) (start : Z) : outcome byteParser :=
  obind (slice_from byteSlice start)
        (fun rest => Returned {| reader := rest; err := None |}).

(* ================================================================== *)
(** ** The model: constant pool items, fields, methods, classes *)

(** [s[i]] on a slice. *)
Definition index_at {A} (s : list A) (i : Z) : outcome A :=
  if (0 <=? i) && (i <? len s) then
    match nth_error s (Z.to_nat i) with
    | Some a => Returned a
    | None => Panicked (IndexOutOfRange i (len s))
    end
  else Panicked (IndexOutOfRange i (len s)).

(** The implementations of the interface [ConstantPoolItem].  The Go structs
    [classInfo], [methodRef], [interfaceMethodRef] and [fieldRef] also hold
    [containingClass *Class]; here the accessors that follow that pointer take
    the class as an argument.  Float and double constants keep their bit
    patterns. *)
Inductive ConstantPoolItem : Type :=
  | methodType (descriptorIndex : Z)
  | methodHandle (referenceKind referenceIndex : Z)
  | invokeDynamic (bootstrapMethodAttrIndex nameAndTypeIndex : Z)
  | nameAndType (nameIndex descriptorIndex : Z)
  | utf8String (contents : string)
  | classInfo (nameIndex : Z)
  | methodRef (classIndex nameAndTypeIndex : Z)
  | interfaceMethodRef (classIndex nameAndTypeIndex : Z)
  | fieldRef (classIndex nameAndTypeIndex : Z)
  | stringConstant (utf8Index : Z)
  | intConstant (value : Z)
  | longConstant (value : Z)
  | WideConstantPart2
  | floatConstant (bits : Z)
  | doubleConstant (bits : Z).

(** Type assertions [x.(T)] in their one-result form: a panic when the
    dynamic type is another one. *)
Definition as_utf8String (it : ConstantPoolItem) : outcome string :=
  match it with
  | utf8String contents => Returned contents
  | _ => Panicked (InterfaceConversion "utf8String")
  end.

Definition as_classInfo (it : ConstantPoolItem) : outcome Z :=
  match it with
  | classInfo nameIndex => Returned nameIndex
  | _ => Panicked (InterfaceConversion "classInfo")
  end.

Definition as_nameAndType (it : ConstantPoolItem) : outcome (Z * Z) :=
  match it with
  | nameAndType nameIndex descriptorIndex => Returned (nameIndex, descriptorIndex)
  | _ => Panicked (InterfaceConversion "nameAndType")
  end.

Definition as_methodRef (it : ConstantPoolItem) : outcome (Z * Z) :=
  match it with
  | methodRef classIndex nameAndTypeIndex => Returned (classIndex, nameAndTypeIndex)
  | _ => Panicked (InterfaceConversion "methodRef")
  end.

Definition as_interfaceMethodRef (it : ConstantPoolItem) : outcome (Z * Z) :=
  match it with
  | interfaceMethodRef classIndex nameAndTypeIndex =>
      Returned (classIndex, nameAndTypeIndex)
  | _ => Panicked (InterfaceConversion "interfaceMethodRef")
  end.

Definition as_fieldRef (it : ConstantPoolItem) : outcome (Z * Z) :=
  match it with
  | fieldRef classIndex nameAndTypeIndex => Returned (classIndex, nameAndTypeIndex)
  | _ => Panicked (InterfaceConversion "fieldRef")
  end.

Definition as_stringConstant (it : ConstantPoolItem) : outcome Z :=
  match it with
  | stringConstant utf8Index => Returned utf8Index
  | _ => Panicked (InterfaceConversion "stringConstant")
  end.

Definition as_longConstant (it : ConstantPoolItem) : outcome Z :=
  match it with
  | longConstant value => Returned value
  | _ => Panicked (InterfaceConversion "longConstant")
  end.

Record ExceptionHandler : Type := mkExceptionHandler {
  ehStart : Z;
  ehEnd : Z;
  ehHandler : Z;
  ehCatchType : Z;
  ehClass : string
}.

Record Code : Type := mkCode {
  maxStack : Z;
  maxLocals : Z;
  Instructions : list Z;
  ExceptionHandlers : list ExceptionHandler
}.

Definition zeroCode : Code := mkCode 0 0 [] [].

Record field : Type := mkField {
  f_accessFlags : Z;
  f_nameIndex : Z;
  f_descriptorIndex : Z
}.

(** [Method] without its back pointer [class *Class]. *)
Record Method : Type := mkMethod {
  Signiture : list string;
  RawSigniture : string;
  m_accessFlags : Z;
  m_nameIndex : Z;
  m_descriptorIndex : Z;
  m_Code : Code
}.

Record Class : Type := mkClass {
  magic : Z;
  MinorVersion : Z;
  MajorVersion : Z;
  ConstantPoolItems : list ConstantPoolItem;
  AccessFlags : Z;
  thisClass : Z;
  superClass : Z;
  interfaces : list Z;
  fields : list field;
  methods : list Method;
  initialised : bool
}.

(** The zero value of [Class]: what the named result [c] of [ParseClass]
    holds before any assignment. *)
Definition zeroClass : Class := mkClass 0 0 0 [] 0 0 0 [] [] [] false.

(** [c.ConstantPoolItems[index-1]] for a [uint16] index: the subtraction
    wraps, so index 0 asks for element 65535. *)
Definition poolAt (pool : list ConstantPoolItem) (index : Z) : outcome ConstantPoolItem :=
  index_at pool (uint16 (index - 1)).

(** [c.ConstantPoolItems[index-1].(utf8String).contents]. *)
Definition utf8At (pool : list ConstantPoolItem) (index : Z) : outcome string :=
  obind (poolAt pool index) as_utf8String.

(* ------------------------------------------------------------------ *)
(** *** Resolution accessors *)

Definition Class_Name (c : Class) : outcome string :=
  obind (obind (poolAt (ConstantPoolItems c) (thisClass c)) as_classInfo)
        (fun nameIndex => utf8At (ConstantPoolItems c) nameIndex).

Definition getSuperName (c : Class) : outcome string :=
  obind (obind (poolAt (ConstantPoolItems c) (superClass c)) as_classInfo)
        (fun nameIndex => utf8At (ConstantPoolItems c) nameIndex).

Definition getMethodRefAt (c : Class) (index : Z) : outcome (Z * Z) :=
  obind (poolAt (ConstantPoolItems c) index) as_methodRef.

Definition getInterfaceMethodRefAt (c : Class) (index : Z) : outcome (Z * Z) :=
  obind (poolAt (ConstantPoolItems c) index) as_interfaceMethodRef.

Definition getFieldRefAt (c : Class) (index : Z) : outcome (Z * Z) :=
  obind (poolAt (ConstantPoolItems c) index) as_fieldRef.

Definition getClassInfoAt (c : Class) (index : Z) : outcome Z :=
  obind (poolAt (ConstantPoolItems c) index) as_classInfo.

Definition getConstantPoolItemAt (c : Class) (index : Z) : outcome ConstantPoolItem :=
  poolAt (ConstantPoolItems c) index.

(** [getStringAt] and [getLongAt] take an [int] and do not subtract 1. *)
Definition getStringAt (c : Class) (index : Z) : outcome string :=
  obind (obind (index_at (ConstantPoolItems c) index) as_stringConstant)
        (fun utf8Index => utf8At (ConstantPoolItems c) utf8Index).

Definition getLongAt (c : Class) (index : Z) : outcome Z :=
  obind (index_at (ConstantPoolItems c) index) as_longConstant.

(** [methodRef.methodName], [className], [methodType]; the receiver is given
    by its two indices, [containingClass] by [c]. *)
Definition methodRef_methodName (c : Class) (classIndex nameAndTypeIndex : Z)
  : outcome string :=
  obind (obind (poolAt (ConstantPoolItems c) nameAndTypeIndex) as_nameAndType)
        (fun nt => utf8At (ConstantPoolItems c) (fst nt)).

Definition methodRef_className (c : Class) (classIndex nameAndTypeIndex : Z)
  : outcome string :=
  obind (obind (poolAt (ConstantPoolItems c) classIndex) as_classInfo)
        (fun nameIndex => utf8At (ConstantPoolItems c) nameIndex).

Definition methodRef_methodType (c : Class) (classIndex nameAndTypeIndex : Z)
  : outcome string :=
  obind (obind (poolAt (ConstantPoolItems c) nameAndTypeIndex) as_nameAndType)
        (fun nt => utf8At (ConstantPoolItems c) (snd nt)).

(** [interfaceMethodRef] and [fieldRef] repeat the three bodies above. *)
Definition interfaceMethodRef_methodName := methodRef_methodName.
Definition interfaceMethodRef_methodType := methodRef_methodType.
Definition interfaceMethodRef_className := methodRef_className.
Definition fieldRef_fieldName := methodRef_methodName.
Definition fieldRef_fieldDescriptor := methodRef_methodType.
Definition fieldRef_className := methodRef_className.

Definition classInfo_className (c : Class) (nameIndex : Z) : outcome string :=
  utf8At (ConstantPoolItems c) nameIndex.

Definition Method_Name (c : Class) (m : Method) : outcome string :=
  utf8At (ConstantPoolItems c) (m_nameIndex m).

(** [hasMethodCalled]: the loop over [c.methods]. *)
Fixpoint hasMethodCalled_from (pool : list ConstantPoolItem) (ms : list Method)
  (name : string) : outcome bool :=
  match ms with
  | [] => Returned false
  | m :: ms' =>
      obind (utf8At pool (m_nameIndex m))
            (fun n => if String.eqb n name then Returned true
                      else hasMethodCalled_from pool ms' name)
  end.

Definition hasMethodCalled (c : Class) (name : string) : outcome bool :=
  hasMethodCalled_from (ConstantPoolItems c) (methods c) name.

(** [resolveMethod]: the method found (or [nil]) and the signatures seen. *)
Fixpoint resolveMethod_from (c : Class) (ms : list Method)
  (name descriptor : string) (avaiableMethods : list string)
  : outcome (option Method * list string) :=
  match ms with
  | [] => Returned (None, avaiableMethods)
  | m :: ms' =>
      obind (utf8At (ConstantPoolItems c) (m_nameIndex m)) (fun n =>
      obind (utf8At (ConstantPoolItems c) (m_descriptorIndex m)) (fun d =>
      obind (Class_Name c) (fun cn =>
        let avaiableMethods :=
          avaiableMethods ++ [cat [cn; "::"%string; n; d]] in
        if String.eqb n name && String.eqb d descriptor
        then Returned (Some m, avaiableMethods)
        else resolveMethod_from c ms' name descriptor avaiableMethods)))
  end.

Definition resolveMethod (c : Class) (name descriptor : string)
  : outcome (option Method * list string) :=
  resolveMethod_from c (methods c) name descriptor [].

Fixpoint getField_from (pool : list ConstantPoolItem) (fs : list field)
  (name : string) : outcome field :=
  match fs with
  | [] => Panicked (ExplicitPanic
                      (cat ["Could not find field called "%string; name]))
  | f :: fs' =>
      obind (utf8At pool (f_nameIndex f))
            (fun n => if String.eqb n name then Returned f
                      else getField_from pool fs' name)
  end.

Definition getField (c : Class) (name : string) : outcome field :=
  getField_from (ConstantPoolItems c) (fields c) name.

(* ------------------------------------------------------------------ *)
(** *** parseSigniture *)

Definition is_char (c : ascii) (s : string) : bool :=
  match s with
  | String d EmptyString => Ascii.eqb c d
  | _ => false
  end.

(** The characters with a [case] of their own in the [switch]. *)
Definition recognised (c : ascii) : bool :=
  existsb (Ascii.eqb c) (list_ascii_of_string "()[BCDFIJSZVL").

(** The [for _, c := range sig] loop with its two variables [s] and
    [className]; [sig] is the whole descriptor (for the panic message) and
    [rest] what is still to be read.  The Go loop steps through runes: a byte
    below 0x80 is always a rune of its own and every other rune falls in the
    [default] case or is skipped inside a class name, so stepping through
    bytes gives the same result. *)
Fixpoint parseSigniture_from (sig rest : string) (s : list string)
  (className : bool) : outcome (list string) :=
  match rest with
  | EmptyString => Returned s
  | String c rest' =>
      if className then
        parseSigniture_from sig rest' s (if is_char c ";" then false else true)
      else if is_char c "(" || is_char c ")" || is_char c "[" then
        parseSigniture_from sig rest' s false
      else if is_char c "B" then
        parseSigniture_from sig rest' (s ++ ["byte"%string]) false
      else if is_char c "C" then
        parseSigniture_from sig rest' (s ++ ["char"%string]) false
      else if is_char c "D" then
        parseSigniture_from sig rest' (s ++ ["double"%string]) false
      else if is_char c "F" then
        parseSigniture_from sig rest' (s ++ ["float"%string]) false
      else if is_char c "I" then
        parseSigniture_from sig rest' (s ++ ["int"%string]) false
      else if is_char c "J" then
        parseSigniture_from sig rest' (s ++ ["long"%string]) false
      else if is_char c "S" then
        parseSigniture_from sig rest' (s ++ ["short"%string]) false
      else if is_char c "Z" then
        parseSigniture_from sig rest' (s ++ ["boolean"%string]) false
      else if is_char c "V" then
        parseSigniture_from sig rest' (s ++ ["void"%string]) false
      else if is_char c "L" then
        parseSigniture_from sig rest' (s ++ ["reference"%string]) true
      else
        Panicked (LogPanic (cat ["Can't parse signiture: "%string; sig]))
  end.

Definition parseSigniture (sig : string) : outcome (list string) :=
  parseSigniture_from sig sig [] false.

(* ------------------------------------------------------------------ *)
(** *** Loops of the model pass *)

Section Loops.
Context {S A : Type}.

(** [for i := 0; i < n; i++ { a[i] = body }]: the values in order. *)
Fixpoint forN (n : nat) (body : St S A) : St S (list A) :=
  match n with
  | O => ret []
  | Datatypes.S n' =>
      (a <- body ;; l <- forN n' body ;; ret (a :: l))%go
  end.

(** [for k := 0; k < n; k++ { _ = body }]. *)
Fixpoint times (n : nat) (body : St S A) : St S unit :=
  match n with
  | O => ret tt
  | Datatypes.S n' => (body ;;; times n' body)%go
  end.
End Loops.

(** A read of the decoder [cr] as a statement. *)
Definition rd (f : byteParser -> Z * byteParser) : St byteParser Z :=
  fun cr => Returned (f cr).

(* ------------------------------------------------------------------ *)
(** *** Parsers of the pool items *)

(** [int64(x)] of an integer: two's complement reading of its low 64
    bits. *)
Definition int64 (z : Z) : Z :=
  if z mod 18446744073709551616 <? 9223372036854775808
  then z mod 18446744073709551616
  else z mod 18446744073709551616 - 18446744073709551616.

(** One function per kind of item, each reading the bytes after the tag.
    The fields of a composite literal are evaluated from left to right.
    The [*Class] argument is only stored in the item. *)
Definition parseMethodType : St byteParser ConstantPoolItem :=
  (descriptorIndex <- rd u2 ;; ret (methodType descriptorIndex))%go.

Definition parseMethodHandle : St byteParser ConstantPoolItem :=
  (referenceKind <- rd u1 ;;
   referenceIndex <- rd u2 ;;
   ret (methodHandle referenceKind referenceIndex))%go.

Definition parseInvokeDynamic : St byteParser ConstantPoolItem :=
  (bootstrapMethodAttrIndex <- rd u2 ;;
   nameAndTypeIndex <- rd u2 ;;
   ret (invokeDynamic bootstrapMethodAttrIndex nameAndTypeIndex))%go.

Definition parseNameAndType : St byteParser ConstantPoolItem :=
  (nameIndex <- rd u2 ;;
   descriptorIndex <- rd u2 ;;
   ret (nameAndType nameIndex descriptorIndex))%go.

(** [string(bytes)] of a slice of byte values. *)
Definition string_of_byte_values (l : list Z) : string :=
  string_of_list_ascii (map (fun x => ascii_of_nat (Z.to_nat x)) l).

Definition parseUTF8String : St byteParser ConstantPoolItem :=
  (length <- rd u2 ;;
   bytes <- forN (Z.to_nat length) (rd u1) ;;
   ret (utf8String (string_of_byte_values bytes)))%go.

Definition parseClassInfo : St byteParser ConstantPoolItem :=
  (nameIndex <- rd u2 ;; ret (classInfo nameIndex))%go.

Definition parseMethodRef : St byteParser ConstantPoolItem :=
  (classIndex <- rd u2 ;;
   nameAndTypeIndex <- rd u2 ;;
   ret (methodRef classIndex nameAndTypeIndex))%go.

Definition parseInterfaceMethodRef : St byteParser ConstantPoolItem :=
  (classIndex <- rd u2 ;;
   nameAndTypeIndex <- rd u2 ;;
   ret (interfaceMethodRef classIndex nameAndTypeIndex))%go.

Definition parseFieldRef : St byteParser ConstantPoolItem :=
  (classIndex <- rd u2 ;;
   nameAndTypeIndex <- rd u2 ;;
   ret (fieldRef classIndex nameAndTypeIndex))%go.

Definition parseStringConstant : St byteParser ConstantPoolItem :=
  (utf8Index <- rd u2 ;; ret (stringConstant utf8Index))%go.

Definition parseIntConstant : St byteParser ConstantPoolItem :=
  (x <- rd u4 ;; ret (intConstant (int32 x)))%go.

(** [long := int64(cr.u4()) << 32; long += int64(cr.u4())]. *)
Definition parseLongConstant : St byteParser ConstantPoolItem :=
  (hi <- rd u4 ;;
   let long := int64 (Z.shiftl hi 32) in
   lo <- rd u4 ;;
   ret (longConstant (int64 (long + lo))))%go.

Definition parseFloatConstant : St byteParser ConstantPoolItem :=
  (bits <- rd u4 ;; ret (floatConstant bits))%go.

Definition parseDoubleConstant : St byteParser ConstantPoolItem :=
  (bits <- rd u8 ;; ret (doubleConstant bits))%go.

(** Methods of [Method]. *)
Definition Method_Static (m : Method) : bool :=
  negb (Z.land (m_accessFlags m) 0x0008 =? 0).

Definition Method_Native (m : Method) : bool :=
  negb (Z.land (m_accessFlags m) 0x0100 =? 0).

Definition Method_numArgs (m : Method) : Z := len (Signiture m) - 1.

Definition Method_Sig (m : Method) : list string := Signiture m.

(* ------------------------------------------------------------------ *)
(** *** parseCode *)

(** One exception handler record; [pool] is
    [method.class.ConstantPoolItems]. *)
Definition parseHandler (pool : list ConstantPoolItem)
  : St byteParser ExceptionHandler :=
  (start <- rd u2 ;;
   end_ <- rd u2 ;;
   handler <- rd u2 ;;
   catchType <- rd u2 ;;
   if negb (catchType =? 0) then
     nameIndex <- lift (obind (poolAt pool catchType) as_classInfo) ;;
     name <- lift (utf8At pool nameIndex) ;;
     ret (mkExceptionHandler start end_ handler catchType name)
   else
     ret (mkExceptionHandler start end_ handler 0 EmptyString))%go.

(** [parseCode(cr, length, method)]: the [Code] stored in [method.Code].
    [cr] is passed by value and shares its reader with the caller's cursor.
    The final loop starts at [k = 8 + codeLength + 2 + 8 * handlers] in
    [uint32] arithmetic and reads one byte for every [k] below [length]. *)
Definition parseCode (pool : list ConstantPoolItem) (length : Z)
  : St byteParser Code :=
  (maxStack <- rd u2 ;;
   maxLocals <- rd u2 ;;
   codeLength <- rd u4 ;;
   Instructions <- forN (Z.to_nat codeLength) (rd u1) ;;
   numExceptionHandlers <- rd u2 ;;
   ExceptionHandlers <- forN (Z.to_nat numExceptionHandlers) (parseHandler pool) ;;
   times (Z.to_nat (length
                    - uint32 (8 + codeLength + 2 + numExceptionHandlers * 8)))
         (rd u1) ;;;
   ret (mkCode maxStack maxLocals Instructions ExceptionHandlers))%go.

(* ------------------------------------------------------------------ *)
(** *** ParseClass *)

Definition newClassDecoder (r : list byte) : byteParser :=
  let cr := {| reader := r; err := None |} in
  let (magic, cr) := u4 cr in
  if negb (magic =? 0xCAFEBABE)
  then {| reader := reader cr; err := Some BadMagicNumber |}
  else cr.

(** An attribute that is read and thrown away (fields and class). *)
Definition skipAttribute : St byteParser unit :=
  (_ <- rd u2 ;;
   length <- rd u4 ;;
   times (Z.to_nat length) (rd u1))%go.

Definition parseField : St byteParser field :=
  (accessFlags <- rd u2 ;;
   nameIndex <- rd u2 ;;
   descriptorIndex <- rd u2 ;;
   attrCount <- rd u2 ;;
   times (Z.to_nat attrCount) skipAttribute ;;;
   ret (mkField accessFlags nameIndex descriptorIndex))%go.

(** The attribute loop of one method; [code] is [c.methods[i].Code]. *)
Fixpoint methodAttributes (pool : list ConstantPoolItem) (n : nat) (code : Code)
  : St byteParser Code :=
  match n with
  | O => ret code
  | S n' =>
      (name <- rd u2 ;;
       length <- rd u4 ;;
       actualName <- lift (utf8At pool name) ;;
       if String.eqb actualName "Code" then
         code' <- parseCode pool length ;;
         methodAttributes pool n' code'
       else
         times (Z.to_nat length) (rd u1) ;;;
         methodAttributes pool n' code)%go
  end.

(** The body of the loop over methods; [pool] is [c.ConstantPoolItems]. *)
Definition parseMethod (pool : list ConstantPoolItem) : St byteParser Method :=
  (accessFlags <- rd u2 ;;
   nameIndex <- rd u2 ;;
   descriptorIndex <- rd u2 ;;
   sig <- lift (utf8At pool descriptorIndex) ;;
   signiture <- lift (parseSigniture sig) ;;
   attrCount <- rd u2 ;;
   code <- methodAttributes pool (Z.to_nat attrCount) zeroCode ;;
   ret (mkMethod signiture sig accessFlags nameIndex descriptorIndex code))%go.

(** [ParseClass] after [newClassDecoder].  The one statement that would fill
    [c.ConstantPoolItems] is commented out in the source, so the pool used by
    the method loop is the one of the zero [Class]. *)
Definition ParseClass_body : St byteParser Class :=
  (let c := zeroClass in
   minorVersion <- rd u2 ;;
   majorVersion <- rd u2 ;;
   cpc <- rd u2 ;;
   accessFlags <- rd u2 ;;
   thisClass <- rd u2 ;;
   superClass <- rd u2 ;;
   interfacesCount <- rd u2 ;;
   interfaces <- forN (Z.to_nat interfacesCount) (rd u2) ;;
   fieldsCount <- rd u2 ;;
   fields <- forN (Z.to_nat fieldsCount) parseField ;;
   methodsCount <- rd u2 ;;
   methods <- forN (Z.to_nat methodsCount) (parseMethod (ConstantPoolItems c)) ;;
   attrCount <- rd u2 ;;
   times (Z.to_nat attrCount) skipAttribute ;;;
   ret (mkClass (magic c) minorVersion majorVersion (ConstantPoolItems c)
                accessFlags thisClass superClass interfaces fields methods
                (initialised c)))%go.

(** [ParseClass(r)]: the class and [cr.err]. *)
Definition ParseClass (r : list byte) : outcome (Class * option error) :=
  match ParseClass_body (newClassDecoder r) with
  | Returned (c, cr) => Returned (c, err cr)
  | Panicked p => Panicked p
  end.

(* ================================================================== *)
(** ** The provenance pass: Sections *)

(** [Section] of the web page: a half-open byte range, a label, children. *)
Inductive Section : Type := mkSection {
  StartIndex : Z;
  EndIndex : Z;
  Name : string;
  Children : list Section;
  Id : Z
}.

Definition leaf (id start end_ : Z) (name : string) : Section :=
  mkSection start end_ name [] id.

(** The state of the pass is the package variable [globalId]. *)
Definition nextId : St Z Z := fun globalId => Returned (globalId, globalId + 1).

(** Every parsing function returns [(next, section)]; [section] may be
    [nil]. *)
Definition parsingFunc : Type := list byte -> Z -> St Z (Z * option Section).

Definition parseMagicNumber : parsingFunc := fun bytes index =>
  (if 4 <=? len bytes then
     parser <- lift (newByteParser bytes index) ;;
     let (magic, _) := u4 parser in
     if magic =? 0xCAFEBABE then
       id <- nextId ;;
       ret (index + 4,
            Some (mkSection index (index + 4) "magic number" [] id))
     else ret (index, None)
   else ret (index, None))%go.

Definition parseVersion : parsingFunc := fun bytes index =>
  (if 4 <=? len bytes then
     parser <- lift (newByteParser bytes index) ;;
     let (minorVersion, parser) := u2 parser in
     let (majorVersion, parser) := u2 parser in
     match err parser with
     | None =>
         id1 <- nextId ;;
         let minorVersionSection :=
           leaf id1 index (index + 2)
                (cat ["minor version: "%string; fmt_d minorVersion]) in
         id2 <- nextId ;;
         let majorVersionSection :=
           leaf id2 (index + 2) (index + 4)
                (cat ["major version: "%string; fmt_d majorVersion]) in
         id3 <- nextId ;;
         ret (index + 4,
              Some (mkSection index (index + 4)
                      (cat ["version "%string; fmt_d majorVersion;
                            "."%string; fmt_d minorVersion])
                      [minorVersionSection; majorVersionSection] id3))
     | Some _ => ret (index, None)
     end
   else ret (index, None))%go.

(** The loop of [parseInterfaces].  The format string of the child label has
    no verb, so [Sprintf] appends the argument as an [EXTRA]. *)
Fixpoint interfacesLoop (n : nat) (next : Z) (parser : byteParser)
  (children : list Section) : St Z (Z * list Section) :=
  match n with
  | O => ret (next, children)
  | S n' =>
      (id <- nextId ;;
       let (x, parser) := u2 parser in
       let child :=
         leaf id next (next + 2)
              (cat ["constant pool index for interface: %!(EXTRA uint16="%string;
                    fmt_d x; ")"%string]) in
       interfacesLoop n' (next + 2) parser (children ++ [child]))%go
  end.

Definition parseInterfaces : parsingFunc := fun bytes index =>
  (let next := index + 2 in
   parser <- lift (newByteParser bytes index) ;;
   let (interfacesCount, parser) := u2 parser in
   '(next, children) <- interfacesLoop (Z.to_nat interfacesCount) next parser [] ;;
   id <- nextId ;;
   ret (next,
        Some (mkSection index next
                (cat ["class implements "%string; fmt_d interfacesCount;
                      " interfaces"%string])
                children id)))%go.

Definition parseThisClass : parsingFunc := fun bytes index =>
  (let next := index + 2 in
   parser <- lift (newByteParser bytes index) ;;
   let (this, _) := u2 parser in
   id <- nextId ;;
   ret (next,
        Some (mkSection index next
                (cat ["constant pool index for this class: "%string; fmt_d this])
                [] id)))%go.

Definition parseSuperClass : parsingFunc := fun bytes index =>
  (let next := index + 2 in
   parser <- lift (newByteParser bytes index) ;;
   let (super, _) := u2 parser in
   id <- nextId ;;
   ret (next,
        Some (mkSection index next
                (cat ["constant pool index for super class: "%string; fmt_d super])
                [] id)))%go.

(** The access flag constants. *)
Definition Public : Z := 0x0001.
Definition Static : Z := 0x0008.
Definition Final : Z := 0x0010.
Definition Super : Z := 0x0020.
Definition Native : Z := 0x0100.
Definition Interface : Z := 0x0200.
Definition Abstract : Z := 0x0400.
Definition Synthetic : Z := 0x1000.
Definition Annotation : Z := 0x2000.
Definition Enum : Z := 0x4000.

(** [flags&F != 0]. *)
Definition has_flag (flags F : Z) : bool := negb (Z.land flags F =? 0).

Definition parseAccessFlags : parsingFunc := fun bytes index =>
  (let next := index + 2 in
   parser <- lift (newByteParser bytes index) ;;
   let (flags, _) := u2 parser in
   id <- nextId ;;
   let publicSec := leaf id (index + 1) (index + 2)
     (cat ["0x0001 public: "%string; fmt_bool (has_flag flags Public)]) in
   id <- nextId ;;
   let staticSec := leaf id (index + 1) (index + 2)
     (cat ["0x0008 static: "%string; fmt_bool (has_flag flags Static)]) in
   id <- nextId ;;
   let finalSec := leaf id (index + 1) (index + 2)
     (cat ["0x0010 final: "%string; fmt_bool (has_flag flags Final)]) in
   id <- nextId ;;
   let superSec := leaf id (index + 1) (index + 2)
     (cat ["0x0020 super: "%string; fmt_bool (has_flag flags Super)]) in
   id <- nextId ;;
   let nativeSec := leaf id index (index + 1)
     (cat ["0x0100 native: "%string; fmt_bool (has_flag flags Native)]) in
   id <- nextId ;;
   let interfaceSec := leaf id index (index + 1)
     (cat ["0x0200 interface: "%string; fmt_bool (has_flag flags Interface)]) in
   id <- nextId ;;
   let abstractSec := leaf id index (index + 1)
     (cat ["0x0400 abstract: "%string; fmt_bool (has_flag flags Abstract)]) in
   id <- nextId ;;
   let syntheticSec := leaf id index (index + 1)
     (cat ["0x1000 synthetic: "%string; fmt_bool (has_flag flags Synthetic)]) in
   id <- nextId ;;
   let annotationSec := leaf id index (index + 1)
     (cat ["0x2000 annotation: "%string; fmt_bool (has_flag flags Annotation)]) in
   id <- nextId ;;
   let enumSec := leaf id index (index + 1)
     (cat ["0x4000 enum: "%string; fmt_bool (has_flag flags Enum)]) in
   id <- nextId ;;
   ret (next,
        Some (mkSection index (index + 2) "access flags"
                [publicSec; staticSec; finalSec; superSec; nativeSec;
                 interfaceSec; abstractSec; syntheticSec; annotationSec;
                 enumSec]
                id)))%go.

(* ------------------------------------------------------------------ *)
(** *** parseConstantPool *)

(** What one turn of the [loop:] does: an entry appended to [children]
    (with the new [next], the parser, and whether the entry did [i++] on its
    own), or [break loop] on an unknown tag (after a [log.Printf], which
    leaves no trace in the result). *)
Inductive turn : Type :=
  | Entry (item : Section) (next : Z) (parser : byteParser) (wide : bool)
  | BreakLoop (next : Z).

(** [parser.u1()] called [n] times, the values in order ([strBytes]). *)
Fixpoint readBytes (n : nat) (parser : byteParser) : list Z * byteParser :=
  match n with
  | O => ([], parser)
  | S n' =>
      let (x, parser) := u1 parser in
      let (l, parser) := readBytes n' parser in
      (x :: l, parser)
  end.

(** [string(strBytes)]. *)
Definition string_of_values (l : list Z) : string :=
  string_of_list_ascii (map (fun x => ascii_of_nat (Z.to_nat x)) l).

(* ------------------------------------------------------------------ *)
(** *** The hex listing of [classJSON] *)






Definition strlen (s : string) : Z := Z.of_nat (String.length s).




Section Provenance.

(** [fmt.Sprintf("%v", math.Float32frombits(bits))] and its 64-bit
    counterpart: the decimal rendering of floats by Go's library, which is
    no part of this repository.  It only reaches labels. *)
Variable fmt_float32 : Z -> string.
Variable fmt_float64 : Z -> string.

(** One turn of the loop, for the entry with loop variable [i], starting
    at offset [next]. *)
Definition cpEntry (i next : Z) (parser : byteParser) : St Z turn :=
  (itemId <- nextId ;;
   tagId <- nextId ;;
   let start := next in
   let (tag, parser) := u1 parser in
   let next := next + 1 in
   let tagSec := leaf tagId start next (cat ["tag: "%string; fmt_d tag]) in
   let label (kind : string) :=
     cat ["["%string; fmt_d (i + 1); "] "%string; kind] in
   match tag with
   | 1 =>
       let (length, parser) := u2 parser in
       let (strBytes, parser) := readBytes (Z.to_nat length) parser in
       id1 <- nextId ;;
       let c1 := leaf id1 next (next + 2)
                      (cat ["length: "%string; fmt_d length]) in
       let next := next + 2 in
       id2 <- nextId ;;
       let c2 := leaf id2 next (next + length)
                      (cat ["string: "%string; dquote;
                            string_of_values strBytes; dquote]) in
       let next := next + length in
       ret (Entry (mkSection start next (label "UTF-8 string"%string)
                     [tagSec; c1; c2] itemId) next parser false)
   | 3 =>
       let (x, parser) := u4 parser in
       id1 <- nextId ;;
       let c1 := leaf id1 next (next + 4) (fmt_d (int32 x)) in
       let next := next + 4 in
       ret (Entry (mkSection start next (label "int"%string)
                     [tagSec; c1] itemId) next parser false)
   | 4 =>
       let (bits, parser) := u4 parser in
       id1 <- nextId ;;
       let c1 := leaf id1 next (next + 4) (fmt_float32 bits) in
       let next := next + 4 in
       ret (Entry (mkSection start next (label "float"%string)
                     [tagSec; c1] itemId) next parser false)
   | 5 =>
       let (x, parser) := u8 parser in
       id1 <- nextId ;;
       let c1 := leaf id1 next (next + 8) (fmt_d x) in
       let next := next + 8 in
       ret (Entry (mkSection start next (label "long"%string)
                     [tagSec; c1] itemId) next parser true)
   | 6 =>
       let (x, parser) := u8 parser in
       id1 <- nextId ;;
       let c1 := leaf id1 next (next + 8) (fmt_float64 x) in
       let next := next + 8 in
       ret (Entry (mkSection start next (label "double"%string)
                     [tagSec; c1] itemId) next parser true)
   | 7 =>
       let (x, parser) := u2 parser in
       id1 <- nextId ;;
       let c1 := leaf id1 next (next + 2)
                      (cat ["name index: "%string; fmt_d x]) in
       let next := next + 2 in
       ret (Entry (mkSection start next (label "class info"%string)
                     [tagSec; c1] itemId) next parser false)
   | 8 =>
       let (utf8Index, parser) := u2 parser in
       id1 <- nextId ;;
       let c1 := leaf id1 next (next + 2)
                      (cat ["UTF-8 constant index: "%string; fmt_d utf8Index]) in
       let next := next + 2 in
       ret (Entry (mkSection start next (label "string constant"%string)
                     [tagSec; c1] itemId) next parser false)
   | 9 =>
       let (classIndex, parser) := u2 parser in
       id1 <- nextId ;;
       let c1 := leaf id1 next (next + 2)
                      (cat ["class info index: "%string; fmt_d classIndex]) in
       let next := next + 2 in
       let (nameAndTypeIndex, parser) := u2 parser in
       id2 <- nextId ;;
       let c2 := leaf id2 next (next + 2)
                      (cat ["name and type index: "%string;
                            fmt_d nameAndTypeIndex]) in
       let next := next + 2 in
       ret (Entry (mkSection start next (label "field ref"%string)
                     [tagSec; c1; c2] itemId) next parser false)
   | 10 =>
       let (classIndex, parser) := u2 parser in
       id1 <- nextId ;;
       let c1 := leaf id1 next (next + 2)
                      (cat ["class info index: "%string; fmt_d classIndex]) in
       let next := next + 2 in
       let (nameAndTypeIndex, parser) := u2 parser in
       id2 <- nextId ;;
       let c2 := leaf id2 next (next + 2)
                      (cat ["name and type index: "%string;
                            fmt_d nameAndTypeIndex]) in
       let next := next + 2 in
       ret (Entry (mkSection start next (label "method ref"%string)
                     [tagSec; c1; c2] itemId) next parser false)
   | 11 =>
       let (classIndex, parser) := u2 parser in
       id1 <- nextId ;;
       let c1 := leaf id1 next (next + 2)
                      (cat ["class info index: "%string; fmt_d classIndex]) in
       let next := next + 2 in
       let (nameAndTypeIndex, parser) := u2 parser in
       id2 <- nextId ;;
       let c2 := leaf id2 next (next + 2)
                      (cat ["name and type index: "%string;
                            fmt_d nameAndTypeIndex]) in
       let next := next + 2 in
       ret (Entry (mkSection start next (label "interface method ref"%string)
                     [tagSec; c1; c2] itemId) next parser false)
   | 12 =>
       let (nameIndex, parser) := u2 parser in
       id1 <- nextId ;;
       let c1 := leaf id1 next (next + 2)
                      (cat ["name index: "%string; fmt_d nameIndex]) in
       let next := next + 2 in
       let (descriptorIndex, parser) := u2 parser in
       id2 <- nextId ;;
       let c2 := leaf id2 next (next + 2)
                      (cat ["descriptor index: "%string;
                            fmt_d descriptorIndex]) in
       let next := next + 2 in
       ret (Entry (mkSection start next (label "name and type"%string)
                     [tagSec; c1; c2] itemId) next parser false)
   | 15 =>
       let (referenceKind, parser) := u1 parser in
       id1 <- nextId ;;
       let c1 := leaf id1 next (next + 1)
                      (cat ["reference kind: "%string; fmt_d referenceKind]) in
       let next := next + 1 in
       let (referenceIndex, parser) := u2 parser in
       id2 <- nextId ;;
       let c2 := leaf id2 next (next + 2)
                      (cat ["reference index: "%string;
                            fmt_d referenceIndex]) in
       let next := next + 2 in
       ret (Entry (mkSection start next (label "method handle"%string)
                     [tagSec; c1; c2] itemId) next parser false)
   | 16 =>
       let (descriptorIndex, parser) := u2 parser in
       id1 <- nextId ;;
       let c1 := leaf id1 next (next + 2)
                      (cat ["descriptor index: "%string;
                            fmt_d descriptorIndex]) in
       let next := next + 2 in
       ret (Entry (mkSection start next (label "method type"%string)
                     [tagSec; c1] itemId) next parser false)
   | 18 =>
       let (bootstrapMethodIndex, parser) := u2 parser in
       id1 <- nextId ;;
       let c1 := leaf id1 next (next + 2)
                      (cat ["bootstrap method attribute index: "%string;
                            fmt_d bootstrapMethodIndex]) in
       let next := next + 2 in
       let (nameAndTypeIndex, parser) := u2 parser in
       id2 <- nextId ;;
       let c2 := leaf id2 next (next + 2)
                      (cat ["name and type index: "%string;
                            fmt_d nameAndTypeIndex]) in
       let next := next + 2 in
       ret (Entry (mkSection start next (label "invoke dynamic"%string)
                     [tagSec; c1; c2] itemId) next parser false)
   | _ => ret (BreakLoop next)
   end)%go.

(** [for i := 0; i < int(constantPoolCount-1); i++], by the number [slots]
    of values of [i] still below the bound: a turn takes one, and a long or
    double entry, which does [i++] itself, takes one more (when one is
    left). *)
Fixpoint cpLoop (slots : nat) (i next : Z) (parser : byteParser)
  (children : list Section) : St Z (Z * list Section) :=
  match slots with
  | O => ret (next, children)
  | S slots' =>
      (t <- cpEntry i next parser ;;
       match t with
       | BreakLoop next' => ret (next', children)
       | Entry item next' parser' wide =>
           if wide
           then cpLoop (Nat.pred slots') (i + 2) next' parser' (children ++ [item])
           else cpLoop slots' (i + 1) next' parser' (children ++ [item])
       end)%go
  end.

Definition parseConstantPool : parsingFunc := fun bytes index =>
  (parser <- lift (newByteParser bytes index) ;;
   let (constantPoolCount, parser) := u2 parser in
   let next := index + 2 in
   id <- nextId ;;
   let countSec :=
     leaf id index next
          (cat ["constant pool count: "%string; fmt_d constantPoolCount]) in
   '(next, children) <-
      cpLoop (Z.to_nat (uint16 (constantPoolCount - 1))) 0 next parser [countSec] ;;
   id <- nextId ;;
   ret (next,
        Some (mkSection index next
                (cat ["constant pool with "%string;
                      fmt_d (len children - 1); " items"%string])
                children id)))%go.

Definition parsingFuncs : list parsingFunc :=
  [parseMagicNumber; parseVersion; parseConstantPool; parseAccessFlags;
   parseThisClass; parseSuperClass; parseInterfaces].

(** The loop of [parseClass] over [parsingFuncs]. *)
Fixpoint runFuncs (fs : list parsingFunc) (bytes : list byte) (index : Z)
  (sections : list Section) : St Z (list Section) :=
  match fs with
  | [] => ret sections
  | f :: fs' =>
      ('(index, section) <- f bytes index ;;
       match section with
       | Some s => runFuncs fs' bytes index (sections ++ [s])
       | None => runFuncs fs' bytes index sections
       end)%go
  end.

(** [parseClass(bytes)]: [globalId = 0], then the loop. *)
Definition parseClass (bytes : list byte) : outcome (list Section) :=
  match runFuncs parsingFuncs bytes 0 [] 0 with
  | Returned (sections, _) => Returned sections
  | Panicked p => Panicked p
  end.


End Provenance.

(* ================================================================== *)
(** ** Vocabulary of the properties *)

(* ------------------------------------------------------------------ *)
(** *** Kinds of pool entries *)

Definition is_classInfo (it : ConstantPoolItem) : Prop :=
  exists nameIndex, it = classInfo nameIndex.

Definition is_utf8String (it : ConstantPoolItem) : Prop :=
  exists contents, it = utf8String contents.

Definition is_nameAndType (it : ConstantPoolItem) : Prop :=
  exists nameIndex descriptorIndex, it = nameAndType nameIndex descriptorIndex.

(* ------------------------------------------------------------------ *)
(** *** Descriptors *)

(** The value of the loop variable [className] once the loop has gone
    through [pre], started with the value [className]. *)
Fixpoint classNameAfter (className : bool) (pre : string) : bool :=
  match pre with
  | EmptyString => className
  | String c pre' =>
      classNameAfter (if className then negb (is_char c ";") else is_char c "L")
                     pre'
  end.

(** The descriptor index read by the body of the method loop: the third
    [u2] from [cr]. *)
Definition descriptorIndexAt (cr : byteParser) : Z :=
  fst (u2 (snd (u2 (snd (u2 cr))))).

(* ------------------------------------------------------------------ *)
(** *** Magic number and hex tokens *)

Definition magicBytes : list byte := [xca; xfe; xba; xbe].


(* ------------------------------------------------------------------ *)
(** *** Shape of a Section forest *)

(** All Sections of a tree, the root first, then the subtrees of the
    children from left to right (depth-first visitation). *)
Fixpoint subsections (s : Section) : list Section :=
  s :: flat_map subsections (Children s).

Definition allSections (sections : list Section) : list Section :=
  flat_map subsections sections.

Definition range (s : Section) : Z * Z := (StartIndex s, EndIndex s).

(** [a] lies before [b]: it starts no later and ends where [b] starts or
    earlier, so the two half-open ranges share no byte. *)
Definition before (a b : Section) : Prop :=
  StartIndex a <= StartIndex b /\ EndIndex a <= StartIndex b.

(** Siblings ordered by start offset and pairwise non-overlapping. *)
Definition ordered (l : list Section) : Prop := ForallOrdPairs before l.

Definition contained (parent child : Section) : Prop :=
  StartIndex parent <= StartIndex child /\ EndIndex child <= EndIndex parent.

(** [chain lo l hi]: the ranges of [l] follow one another between [lo] and
    [hi]. *)
Fixpoint chain (lo : Z) (l : list Section) (hi : Z) : Prop :=
  match l with
  | [] => lo <= hi
  | c :: l' =>
      lo <= StartIndex c /\ StartIndex c <= EndIndex c /\ chain (EndIndex c) l' hi
  end.

(** [rising lo l hi]: strictly increasing numbers between [lo] and [hi]. *)
Fixpoint rising (lo : Z) (l : list Z) (hi : Z) : Prop :=
  match l with
  | [] => lo <= hi
  | x :: l' => lo <= x /\ rising (x + 1) l' hi
  end.

(** The shape of the access-flags Section: two bytes, ten children; the
    first four cover the second byte, the last six the first byte. *)
Definition flags_like (s : Section) : Prop :=
  Name s = "access flags"%string
  /\ EndIndex s = StartIndex s + 2
  /\ map range (Children s)
     = repeat (StartIndex s + 1, StartIndex s + 2) 4
       ++ repeat (StartIndex s, StartIndex s + 1) 6.

Definition leafy (g : Section) : Prop :=
  Children g = [] /\ StartIndex g <= EndIndex g.

(** A Section of the second level: its children are leaves that follow one
    another inside it. *)
Definition entry_ok (c : Section) : Prop :=
  chain (StartIndex c) (Children c) (EndIndex c) /\ Forall leafy (Children c).

(** The order in which the Sections below and including a top-level Section
    get their ids: every second-level Section just before its children, the
    top-level Section last. *)
Definition creation_item (c : Section) : list Section := c :: Children c.

Definition creation_top (s : Section) : list Section :=
  flat_map creation_item (Children s) ++ [s].

Definition creation (sections : list Section) : list Section :=
  flat_map creation_top sections.

Definition ids2 (cs : list Section) : list Z :=
  map Id (flat_map creation_item cs).

(** What a parsing function promises about the Section it returns, when
    called at offset [index] with [globalId = g] and leaving [next] and
    [globalId = g']. *)
Definition top_ok (index next g g' : Z) (s : Section) : Prop :=
  StartIndex s = index /\ EndIndex s = next /\ index <= next
  /\ Id s = g' - 1
  /\ rising g (ids2 (Children s)) (g' - 1)
  /\ hd (Id s) (ids2 (Children s)) = g
  /\ Forall entry_ok (Children s)
  /\ (chain index (Children s) next \/ flags_like s).

(** What every parsing function does: a Section that meets [top_ok], or no
    Section and nothing moved. *)
Definition func_ok (f : parsingFunc) : Prop :=
  forall bytes index g next section g',
    f bytes index g = Returned ((next, section), g') ->
    match section with
    | Some s => top_ok index next g g' s
    | None => next = index /\ g' = g
    end.

(** The one way a parsing function panics: the slice taken by
    [newByteParser] at its own offset. *)
Definition func_panic_ok (f : parsingFunc) : Prop :=
  forall bytes index g p,
    f bytes index g = Panicked p ->
    p = SliceBoundsOutOfRange index (len bytes) /\ ~ (0 <= index <= len bytes).

(** A parsing function that returns a Section was called at an offset
    inside the buffer. *)
Definition func_in_buffer (f : parsingFunc) : Prop :=
  forall bytes index g next s g',
    f bytes index g = Returned ((next, Some s), g') ->
    0 <= index <= len bytes.

(** The top-level Sections so far: each one starts, in offsets and in ids,
    where the one before stopped. *)
Fixpoint forest (lo glo : Z) (l : list Section) (hi ghi : Z) : Prop :=
  match l with
  | [] => lo = hi /\ glo = ghi
  | s :: l' =>
      exists g2, top_ok lo (EndIndex s) glo g2 s
                 /\ forest (EndIndex s) g2 l' hi ghi
  end.

(** What holds at every Section of a decode. *)
Definition node_ok (x : Section) : Prop :=
  StartIndex x <= EndIndex x
  /\ Forall (contained x) (Children x)
  /\ (ordered (Children x) \/ flags_like x).

(* ------------------------------------------------------------------ *)
(** *** Statements on the cursor *)

(** [m] leaves the [err] field of the cursor as it found it. *)
Definition keeps_err {A} (m : St byteParser A) : Prop :=
  forall cr a cr', m cr = Returned (a, cr') -> err cr' = err cr.

(** Every panic of [m] satisfies [P]. *)
Definition panics_only (P : panic -> Prop) {A} (m : St byteParser A) : Prop :=
  forall cr p, m cr = Panicked p -> P p.

(** A lookup in a pool without entries. *)
Definition empty_pool_lookup (p : panic) : Prop :=
  exists i, p = IndexOutOfRange i 0.

(* ------------------------------------------------------------------ *)
(** *** Markers and lookups *)

(** The marker the [switch] of [parseSigniture] appends for [c]; nothing
    for the three structural characters. *)
Definition markerOf (c : ascii) : list string :=
  if is_char c "B" then ["byte"%string]
  else if is_char c "C" then ["char"%string]
  else if is_char c "D" then ["double"%string]
  else if is_char c "F" then ["float"%string]
  else if is_char c "I" then ["int"%string]
  else if is_char c "J" then ["long"%string]
  else if is_char c "S" then ["short"%string]
  else if is_char c "Z" then ["boolean"%string]
  else if is_char c "V" then ["void"%string]
  else if is_char c "L" then ["reference"%string]
  else [].

(** No [;] in [name]. *)
Definition no_semicolon (name : string) : Prop :=
  Forall (fun c => is_char c ";" = false) (list_ascii_of_string name).

(** The name index of [m] resolves to a text other than [name]. *)
Definition method_named_otherwise (pool : list ConstantPoolItem)
  (name : string) (m : Method) : Prop :=
  exists n, utf8At pool (m_nameIndex m) = Returned n /\ n <> name.

Definition field_named_otherwise (pool : list ConstantPoolItem)
  (name : string) (f : field) : Prop :=
  exists n, utf8At pool (f_nameIndex f) = Returned n /\ n <> name.

(* ------------------------------------------------------------------ *)
(** *** Exact layouts *)

(** [tiles lo l hi]: the ranges of [l] cover [lo .. hi) with neither gap nor
    overlap, each one starting where the one before ends. *)
Fixpoint tiles (lo : Z) (l : list Section) (hi : Z) : Prop :=
  match l with
  | [] => lo = hi
  | s :: l' => StartIndex s = lo /\ tiles (EndIndex s) l' hi
  end.

(** [consecutive g l]: [l] is [g; g+1; g+2; ...]. *)
Fixpoint consecutive (g : Z) (l : list Z) : Prop :=
  match l with
  | [] => True
  | x :: l' => x = g /\ consecutive (g + 1) l'
  end.

(** The tags with a [case] in the [switch] of [parseConstantPool]. *)
Definition knownTags : list Z := [1; 3; 4; 5; 6; 7; 8; 9; 10; 11; 12; 15; 16; 18].

(** A child of two bytes without children of its own. *)
Definition two_byte_leaf (c : Section) : Prop :=
  EndIndex c = StartIndex c + 2 /\ Children c = [].

(** The count read by [parseInterfaces] and [parseConstantPool]: the two
    bytes at the start of what [newByteParser] hands out. *)
Definition countAt (rest : list byte) : Z :=
  fst (u2 {| reader := rest; err := None |}).

(* ------------------------------------------------------------------ *)
(** *** Sample inputs *)

(** A class file without constant pool entries, fields or methods:
    version 52.0, [public super]. *)
Definition emptyClassFile : list byte :=
  [xca; xfe; xba; xbe; x00; x00; x00; x34; x00; x01; x00; x21;
   x00; x00; x00; x00; x00; x00; x00; x00; x00; x00; x00; x00].

(** A class whose [thisClass] points at a UTF-8 entry, and whose entry 2 is
    a method reference whose name-and-type index points at a class entry. *)
Definition crossedClass : Class :=
  mkClass 0 0 52
    [utf8String "Foo"; methodRef 3 3; classInfo 1]
    33 1 3 [] [] [] false.

(** A reader at a method record: access flags 1, name index 1, descriptor
    index 1, no attributes; then a second record. *)
Definition twoMethods : byteParser :=
  {| reader := [x00; x01; x00; x01; x00; x01; x00; x00;
                x00; x01; x00; x01; x00; x01; x00; x00];
     err := None |}.

(** The label of a float or double entry in the samples below, which hold
    no such entry. *)
Definition noFloats : Z -> string := fun _ => EmptyString.

Definition sections_of (o : outcome (list Section)) : list Section :=
  match o with
  | Returned l => l
  | Panicked _ => []
  end.

(** The forest of [emptyClassFile]. *)
Definition emptyClassSections : list Section :=
  Eval vm_compute in sections_of (parseClass noFloats noFloats emptyClassFile).

(** A class file that declares one method. *)
Definition oneMethodFile : list byte :=
  [xca; xfe; xba; xbe; x00; x00; x00; x34; x00; x01; x00; x21;
   x00; x00; x00; x00; x00; x00; x00; x00; x00; x01;
   x00; x01; x00; x05; x00; x06; x00; x00; x00; x00].

(** [emptyClassFile] with its magic number zeroed and the tail cut after
    the interface count. *)
(** A pool whose count is zero, followed by one class-info entry, and the
    Section [parseConstantPool] makes of it. *)
Definition zeroCountPool : list byte := [x00; x00; x07; x00; x02].

Definition zeroCountPoolSection : Section :=
  mkSection 0 6 "constant pool with 1 items"
    [leaf 0 0 2 "constant pool count: 0";
     mkSection 2 5 "[1] class info"
       [leaf 2 2 3 "tag: 7"; leaf 3 3 5 "name index: 2"] 1]
    6.

Definition badMagicFile : list byte :=
  [x00; x00; x00; x00; x00; x01; x00; x21; x00; x00; x00; x00; x00; x00].

(** A pool with a long at index 1 and the text "A" at index 3. *)
Definition longFile : list byte :=
  [xca; xfe; xba; xbe; x00; x00; x00; x34; x00; x04;
   x05; x00; x00; x00; x00; x00; x00; x00; x00;
   x01; x00; x01; x41;
   x00; x21; x00; x00; x00; x00; x00; x00;
   x00; x00; x00; x00; x00; x00].

Definition longFileSections : list Section :=
  Eval vm_compute in sections_of (parseClass noFloats noFloats longFile).

(* ================================================================== *)
(** * Properties *)

(* ------------------------------------------------------------------ *)
(** ** The cursor *)

Lemma byte_val_range (b : byte) : 0 <= byte_val b < 256.
Proof.
  unfold byte_val. pose proof (Byte.to_N_bounded b). lia.
Qed.

Lemma byte_val_inj (a b : byte) : byte_val a = byte_val b -> a = b.
Proof.
  unfold byte_val. intros H. apply N2Z.inj in H.
  assert (E : Some a = Some b)
    by (rewrite <- (Byte.of_to_N a), <- (Byte.of_to_N b); now rewrite H).
  now inversion E.
Qed.

Lemma bigEndian_nonneg (bs : list byte) (acc : Z) :
  0 <= acc -> 0 <= bigEndian acc bs.
Proof.
  revert acc. induction bs as [|b bs IH]; intros acc Hacc; simpl; [exact Hacc|].
  apply IH. pose proof (byte_val_range b). lia.
Qed.

(** A read on a cursor that already failed: zero, and nothing moves. *)
Lemma read_failed (n : nat) (r : byteParser) (e : error) :
  err r = Some e -> by_value (read_body n) r = (0, r).
Proof.
  intros H. unfold by_value, read_body. rewrite H. destruct r; simpl in *.
  now rewrite H.
Qed.

(** A read with too few bytes left: zero, the reader is drained (never moved
    past its end), and the caller's [err] is still [nil]. *)
Lemma read_short (n : nat) (r : byteParser) :
  err r = None -> (List.length (reader r) < n)%nat ->
  by_value (read_body n) r = (0, {| reader := []; err := None |}).
Proof.
  intros H Hlt. unfold by_value, read_body, binaryRead, ReadFull. rewrite H.
  destruct (Nat.leb_spec n (List.length (reader r))) as [Hle|_]; [lia|].
  reflexivity.
Qed.

(** A read with enough bytes left: the big-endian value, the reader moved
    by [n]. *)
Lemma read_enough (n : nat) (r : byteParser) :
  err r = None -> (n <= List.length (reader r))%nat ->
  by_value (read_body n) r
  = (bigEndian 0 (firstn n (reader r)),
     {| reader := skipn n (reader r); err := None |}).
Proof.
  intros H Hle. unfold by_value, read_body, binaryRead, ReadFull. rewrite H.
  destruct (Nat.leb_spec n (List.length (reader r))) as [_|Hlt]; [|lia].
  reflexivity.
Qed.

(** No read changes the [err] field the caller holds. *)
Lemma read_err_unchanged (n : nat) (r : byteParser) :
  err (snd (by_value (read_body n) r)) = err r.
Proof.
  unfold by_value. destruct (read_body n r). reflexivity.
Qed.

Lemma read_nonneg (n : nat) (r : byteParser) :
  0 <= fst (by_value (read_body n) r).
Proof.
  unfold by_value, read_body, binaryRead, ReadFull.
  destruct (err r); simpl; [lia|].
  destruct (n <=? List.length (reader r))%nat; simpl; [|lia].
  apply bigEndian_nonneg. lia.
Qed.

(** The reader only ever shrinks: no read goes back or past the end. *)
Lemma read_reader_suffix (n : nat) (r : byteParser) :
  exists k, reader (snd (by_value (read_body n) r)) = skipn k (reader r).
Proof.
  unfold by_value, read_body, binaryRead, ReadFull.
  destruct (err r); simpl; [exists O; reflexivity|].
  destruct (n <=? List.length (reader r))%nat; simpl.
  - exists n. reflexivity.
  - exists (List.length (reader r)). now rewrite skipn_all.
Qed.

(** C3 (the code departs from the claim): a read that finds too few bytes
    returns zero and drains the reader, but the failure is stored in the
    method's own copy of the cursor and is lost: the caller's [err] stays
    [nil].  Here on a one-byte buffer read by [u2], and on a class file cut
    right after the magic number, for which [ParseClass] reports no error. *)
Theorem C3_read_failure_is_lost :
  u2 {| reader := [x01]; err := None |} = (0, {| reader := []; err := None |})
  /\ u1 {| reader := []; err := None |} = (0, {| reader := []; err := None |})
  /\ ParseClass [xca; xfe; xba; xbe] = Returned (zeroClass, None).
Proof.
  repeat split; reflexivity.
Qed.

(** In general: whatever is read, in whatever state, the caller's [err]
    after the read is its [err] before. *)
Lemma reads_never_record_failure (r : byteParser) :
  err (snd (u1 r)) = err r /\ err (snd (u2 r)) = err r
  /\ err (snd (u4 r)) = err r /\ err (snd (u8 r)) = err r.
Proof.
  repeat split; apply read_err_unchanged.
Qed.

(* ------------------------------------------------------------------ *)
(** ** The magic number *)

Lemma u4_magic_inv (r : list byte) :
  fst (u4 {| reader := r; err := None |}) = 0xCAFEBABE ->
  firstn 4 r = magicBytes.
Proof.
  destruct r as [|a [|b [|c [|d r]]]]; try discriminate.
  unfold u4, by_value, read_body, binaryRead, ReadFull; simpl.
  intros H.
  pose proof (byte_val_range a). pose proof (byte_val_range b).
  pose proof (byte_val_range c). pose proof (byte_val_range d).
  assert (Ha : byte_val a = byte_val xca) by (change (byte_val xca) with 202; lia).
  assert (Hb : byte_val b = byte_val xfe) by (change (byte_val xfe) with 254; lia).
  assert (Hc : byte_val c = byte_val xba) by (change (byte_val xba) with 186; lia).
  assert (Hd : byte_val d = byte_val xbe) by (change (byte_val xbe) with 190; lia).
  apply byte_val_inj in Ha, Hb, Hc, Hd. subst. reflexivity.
Qed.

Lemma newClassDecoder_bad_magic (r : list byte) :
  firstn 4 r <> magicBytes ->
  exists rest, newClassDecoder r = {| reader := rest; err := Some BadMagicNumber |}.
Proof.
  intros Hm. unfold newClassDecoder.
  pose proof (u4_magic_inv r) as Hinv.
  destruct (u4 {| reader := r; err := None |}) as [magic cr]. cbn [fst] in Hinv.
  destruct (Z.eqb_spec magic 0xCAFEBABE) as [E|_]; [tauto|].
  simpl. eexists. reflexivity.
Qed.

(** With a cursor whose [err] is set, every read of [ParseClass] gives zero:
    all counts are zero, no loop runs, and the zero class comes back. *)
Lemma ParseClass_body_failed (rest : list byte) (e : error) :
  ParseClass_body {| reader := rest; err := Some e |}
  = Returned (zeroClass, {| reader := rest; err := Some e |}).
Proof. reflexivity. Qed.

Section ProvenanceProperties.

Variable fmt_float32 : Z -> string.
Variable fmt_float64 : Z -> string.

Local Abbreviation parsingFuncs := (parsingFuncs fmt_float32 fmt_float64).
Local Abbreviation parseClass := (parseClass fmt_float32 fmt_float64).

Lemma parseClass_eq (bytes : list byte) :
  parseClass bytes
  = match runFuncs parsingFuncs bytes 0 [] 0 with
    | Returned (sections, _) => Returned sections
    | Panicked p => Panicked p
    end.
Proof. reflexivity. Qed.

Lemma parseMagicNumber_bad_magic (bytes : list byte) (globalId : Z) :
  firstn 4 bytes <> magicBytes ->
  parseMagicNumber bytes 0 globalId = Returned ((0, None), globalId).
Proof.
  intros Hm. unfold parseMagicNumber.
  destruct (4 <=? len bytes); [|reflexivity].
  unfold bind, lift, newByteParser, slice_from, obind.
  assert (Hlen : (0 <=? 0) && (0 <=? len bytes) = true).
  { unfold len. apply andb_true_intro. split; apply Z.leb_le; lia. }
  rewrite Hlen. change (skipn (Z.to_nat 0) bytes) with bytes.
  pose proof (u4_magic_inv bytes) as Hinv.
  destruct (u4 {| reader := bytes; err := None |}) as [magic cr].
  simpl in Hinv.
  destruct (Z.eqb_spec magic 0xCAFEBABE) as [E|_]; [tauto|reflexivity].
Qed.

(** C1 (as the code has it): on a buffer that does not start with
    0xCAFEBABE the model decoder returns the zero class together with the
    "Bad magic number" error; the provenance pass emits no magic-number
    Section and stays at offset 0 with id 0, but it does not stop: the six
    remaining parsing functions run from offset 0. *)
Theorem C1_bad_magic (bytes : list byte) :
  firstn 4 bytes <> magicBytes ->
  ParseClass bytes = Returned (zeroClass, Some BadMagicNumber)
  /\ parseMagicNumber bytes 0 0 = Returned ((0, None), 0)
  /\ parseClass bytes
     = match runFuncs (tl parsingFuncs) bytes 0 [] 0 with
       | Returned (sections, _) => Returned sections
       | Panicked p => Panicked p
       end.
Proof.
  intros Hm. split; [|split].
  - unfold ParseClass.
    destruct (newClassDecoder_bad_magic bytes Hm) as [rest ->].
    now rewrite ParseClass_body_failed.
  - now apply parseMagicNumber_bad_magic.
  - rewrite parseClass_eq. simpl runFuncs. unfold bind at 1.
    now rewrite (parseMagicNumber_bad_magic bytes 0 Hm).
Qed.

(** C10 (the code departs from the claim): only [parseMagicNumber] and
    [parseVersion] look at the buffer length, and they compare the whole
    length with 4, not what is left after [index].  The other parsing
    functions add their widths to [index] unchecked, and [newByteParser]
    slices the buffer at an offset past its end.  A file that holds the
    magic number alone gets a version Section over bytes 4..8, which do not
    exist, and the next slice panics; the empty buffer panics as well. *)
Theorem C10_slice_out_of_bounds :
  parseClass [xca; xfe; xba; xbe] = Panicked (SliceBoundsOutOfRange 8 4)
  /\ parseClass [] = Panicked (SliceBoundsOutOfRange 3 0)
  /\ parseVersion [xca; xfe; xba; xbe] 4 1
     = Returned ((8, Some (mkSection 4 8 "version 0.0"
                             [leaf 1 4 6 "minor version: 0";
                              leaf 2 6 8 "major version: 0"] 3)), 4).
Proof.
  repeat split; reflexivity.
Qed.

End ProvenanceProperties.

(* ------------------------------------------------------------------ *)
(** ** The model pass and its constant pool *)

Lemma bind_Returned {S A B} (m : St S A) (k : A -> St S B) (s : S) (r : B * S) :
  bind m k s = Returned r ->
  exists a s', m s = Returned (a, s') /\ k a s' = Returned r.
Proof.
  unfold bind. destruct (m s) as [[a s']|p]; [|discriminate].
  intros H. now exists a, s'.
Qed.

Lemma bind_Panicked {S A B} (m : St S A) (k : A -> St S B) (s : S) (p : panic) :
  m s = Panicked p -> bind m k s = Panicked p.
Proof.
  unfold bind. now intros ->.
Qed.

Ltac bind_inv H :=
  let a := fresh "v" in
  let s := fresh "cr" in
  let E := fresh "E" in
  apply bind_Returned in H; destruct H as (a & s & E & H).

Lemma index_at_nil {A} (i : Z) :
  @index_at A [] i = Panicked (IndexOutOfRange i 0).
Proof.
  unfold index_at. destruct ((0 <=? i) && (i <? len [])); [|reflexivity].
  now destruct (Z.to_nat i).
Qed.

Lemma poolAt_nil (index : Z) :
  poolAt [] index = Panicked (IndexOutOfRange (uint16 (index - 1)) 0).
Proof. apply index_at_nil. Qed.

Lemma utf8At_nil (index : Z) :
  utf8At [] index = Panicked (IndexOutOfRange (uint16 (index - 1)) 0).
Proof. unfold utf8At. now rewrite poolAt_nil. Qed.

(** With an empty pool the body of the method loop panics at its first
    look into the pool, before the descriptor is parsed. *)
Lemma parseMethod_nil (cr : byteParser) : panics (parseMethod [] cr).
Proof.
  unfold parseMethod, bind, rd, lift.
  destruct (u2 cr) as [a cr1]. destruct (u2 cr1) as [n cr2].
  destruct (u2 cr2) as [d cr3]. rewrite utf8At_nil. eexists. reflexivity.
Qed.

Lemma forN_parseMethod_nil (n : nat) (cr cr' : byteParser) (l : list Method) :
  forN n (parseMethod []) cr = Returned (l, cr') -> n = O /\ l = [].
Proof.
  destruct n as [|n]; simpl.
  - unfold ret. intros H. inversion H. auto.
  - intros H. bind_inv H. destruct (parseMethod_nil cr) as [p Hp]. congruence.
Qed.

Lemma getField_from_nil (fs : list field) (name : string) :
  panics (getField_from [] fs name).
Proof.
  destruct fs as [|f fs]; simpl.
  - eexists. reflexivity.
  - rewrite utf8At_nil. eexists. reflexivity.
Qed.

(** The class [ParseClass] returns has no pool entry and no method. *)
Lemma ParseClass_no_pool (r : list byte) (c : Class) (e : option error) :
  ParseClass r = Returned (c, e) ->
  ConstantPoolItems c = [] /\ methods c = [].
Proof.
  unfold ParseClass. intros H.
  destruct (ParseClass_body (newClassDecoder r)) as [[c' cr]|p] eqn:Hb;
    [|discriminate].
  inversion H; subst c' e; clear H.
  unfold ParseClass_body in Hb.
  do 13 (bind_inv Hb). bind_inv Hb.
  unfold ret in Hb. inversion Hb; subst; clear Hb.
  match goal with
  | Hm : forN _ (parseMethod _) _ = Returned _ |- _ =>
      apply forN_parseMethod_nil in Hm; destruct Hm as [_ ->]
  end.
  split; reflexivity.
Qed.

(** C9: whatever the input, a class returned by [ParseClass] has an empty
    constant pool, and no accessor that goes through the pool can give an
    answer on it: [Name], [getSuperName], [getField] and
    [getConstantPoolItemAt] panic, while [hasMethodCalled] and
    [resolveMethod] find nothing, because the method list is empty as well
    (a file that declares a method makes [ParseClass] itself panic). *)
Theorem C9_pool_never_populated (r : list byte) (c : Class) (e : option error) :
  ParseClass r = Returned (c, e) ->
  ConstantPoolItems c = []
  /\ methods c = []
  /\ panics (Class_Name c)
  /\ panics (getSuperName c)
  /\ (forall name, panics (getField c name))
  /\ (forall index, panics (getConstantPoolItemAt c index))
  /\ (forall name, hasMethodCalled c name = Returned false)
  /\ (forall name descriptor,
        resolveMethod c name descriptor = Returned (None, [])).
Proof.
  intros H. destruct (ParseClass_no_pool r c e H) as [Hpool Hmethods].
  split; [exact Hpool|]. split; [exact Hmethods|].
  unfold Class_Name, getSuperName, getField, getConstantPoolItemAt,
    hasMethodCalled, resolveMethod.
  rewrite Hpool, Hmethods. repeat split.
  - rewrite poolAt_nil. eexists; reflexivity.
  - rewrite poolAt_nil. eexists; reflexivity.
  - intros name. apply getField_from_nil.
  - intros index. rewrite poolAt_nil. eexists; reflexivity.
Qed.

Lemma C9_witness :
  ParseClass emptyClassFile
  = Returned (mkClass 0 0 52 [] 33 0 0 [] [] [] false, None)
  /\ panics (Class_Name (mkClass 0 0 52 [] 33 0 0 [] [] [] false))
  /\ hasMethodCalled (mkClass 0 0 52 [] 33 0 0 [] [] [] false) "main"
     = Returned false.
Proof.
  pose proof (C9_pool_never_populated emptyClassFile
                (mkClass 0 0 52 [] 33 0 0 [] [] [] false) None eq_refl) as H.
  split; [reflexivity|]. split; [apply H|]. apply H.
Defined.

(** [ParseClass] panics on every file that declares at least one method. *)
Lemma ParseClass_methods_panic (cr : byteParser) (n : nat) :
  panics (forN (S n) (parseMethod (ConstantPoolItems zeroClass)) cr).
Proof.
  simpl. destruct (parseMethod_nil cr) as [p Hp].
  exists p. now apply bind_Panicked.
Qed.

(* ------------------------------------------------------------------ *)
(** ** Resolution through the pool *)

Lemma as_classInfo_wrong (it : ConstantPoolItem) :
  ~ is_classInfo it -> as_classInfo it = Panicked (InterfaceConversion "classInfo").
Proof.
  intros H. destruct it; try reflexivity. exfalso. apply H. eexists; reflexivity.
Qed.

Lemma as_utf8String_wrong (it : ConstantPoolItem) :
  ~ is_utf8String it -> as_utf8String it = Panicked (InterfaceConversion "utf8String").
Proof.
  intros H. destruct it; try reflexivity. exfalso. apply H. eexists; reflexivity.
Qed.

Lemma as_nameAndType_wrong (it : ConstantPoolItem) :
  ~ is_nameAndType it ->
  as_nameAndType it = Panicked (InterfaceConversion "nameAndType").
Proof.
  intros H. destruct it; try reflexivity. exfalso. apply H.
  do 2 eexists; reflexivity.
Qed.

(** The two hops [pool[first-1].(classInfo)], [pool[nameIndex-1].(utf8String)]
    shared by [Name], [getSuperName] and the [className] methods. *)
Lemma class_hops (pool : list ConstantPoolItem) (first : Z) :
  let hops := obind (obind (poolAt pool first) as_classInfo)
                    (fun nameIndex => utf8At pool nameIndex) in
  (forall it, poolAt pool first = Returned it -> ~ is_classInfo it ->
     hops = Panicked (InterfaceConversion "classInfo"))
  /\ (forall nameIndex it,
        poolAt pool first = Returned (classInfo nameIndex) ->
        poolAt pool nameIndex = Returned it -> ~ is_utf8String it ->
        hops = Panicked (InterfaceConversion "utf8String"))
  /\ (forall p, poolAt pool first = Panicked p -> hops = Panicked p)
  /\ (forall nameIndex p,
        poolAt pool first = Returned (classInfo nameIndex) ->
        poolAt pool nameIndex = Panicked p -> hops = Panicked p)
  /\ (forall s, hops = Returned s <->
        exists nameIndex,
          poolAt pool first = Returned (classInfo nameIndex)
          /\ poolAt pool nameIndex = Returned (utf8String s)).
Proof.
  cbv zeta. unfold utf8At. repeat split.
  - intros it -> Hk. simpl. now rewrite as_classInfo_wrong.
  - intros n it -> H2 Hk. simpl. rewrite H2. simpl. now apply as_utf8String_wrong.
  - now intros p ->.
  - intros n p -> H2. simpl. now rewrite H2.
  - destruct (poolAt pool first) as [it|p]; simpl; [|discriminate].
    destruct it; simpl; try discriminate.
    destruct (poolAt pool nameIndex) as [it|p] eqn:E2; simpl; [|discriminate].
    destruct it; simpl; try discriminate.
    intros H. inversion H; subst. eexists. split; [reflexivity|exact E2].
  - intros (n & -> & H2). simpl. rewrite H2. reflexivity.
Qed.

(** The two hops [pool[first-1].(nameAndType)],
    [pool[nt.nameIndex-1].(utf8String)] of the [methodName] and [fieldName]
    methods. *)
Lemma nameAndType_hops (pool : list ConstantPoolItem) (first : Z) :
  let hops := obind (obind (poolAt pool first) as_nameAndType)
                    (fun nt => utf8At pool (fst nt)) in
  (forall it, poolAt pool first = Returned it -> ~ is_nameAndType it ->
     hops = Panicked (InterfaceConversion "nameAndType"))
  /\ (forall nameIndex descriptorIndex it,
        poolAt pool first = Returned (nameAndType nameIndex descriptorIndex) ->
        poolAt pool nameIndex = Returned it -> ~ is_utf8String it ->
        hops = Panicked (InterfaceConversion "utf8String"))
  /\ (forall s, hops = Returned s <->
        exists nameIndex descriptorIndex,
          poolAt pool first = Returned (nameAndType nameIndex descriptorIndex)
          /\ poolAt pool nameIndex = Returned (utf8String s)).
Proof.
  cbv zeta. unfold utf8At. repeat split.
  - intros it -> Hk. simpl. now rewrite as_nameAndType_wrong.
  - intros n d it -> H2 Hk. simpl. rewrite H2. simpl.
    now apply as_utf8String_wrong.
  - destruct (poolAt pool first) as [it|p]; simpl; [|discriminate].
    destruct it; simpl; try discriminate.
    destruct (poolAt pool nameIndex) as [it|p] eqn:E2; simpl; [|discriminate].
    destruct it; simpl; try discriminate.
    intros H. inversion H; subst. do 2 eexists. split; [reflexivity|exact E2].
  - intros (n & d & -> & H2). simpl. rewrite H2. reflexivity.
Qed.

(** C2 (as the code has it): the accessors assert the kind of each entry
    with the one-result form [x.(T)].  When a hop lands on an entry of
    another kind the accessor panics with the failed conversion, the class
    hop first; there is no checked result.  A name comes back exactly when
    every hop lands on the kind expected.  Shown for [Name] and for
    [methodRef.methodName]. *)
Theorem C2_wrong_kind_panics (c : Class) (classIndex nameAndTypeIndex : Z) :
  let pool := ConstantPoolItems c in
  (forall it, poolAt pool (thisClass c) = Returned it -> ~ is_classInfo it ->
     Class_Name c = Panicked (InterfaceConversion "classInfo"))
  /\ (forall nameIndex it,
        poolAt pool (thisClass c) = Returned (classInfo nameIndex) ->
        poolAt pool nameIndex = Returned it -> ~ is_utf8String it ->
        Class_Name c = Panicked (InterfaceConversion "utf8String"))
  /\ (forall s, Class_Name c = Returned s <->
        exists nameIndex,
          poolAt pool (thisClass c) = Returned (classInfo nameIndex)
          /\ poolAt pool nameIndex = Returned (utf8String s))
  /\ (forall it, poolAt pool nameAndTypeIndex = Returned it ->
        ~ is_nameAndType it ->
        methodRef_methodName c classIndex nameAndTypeIndex
        = Panicked (InterfaceConversion "nameAndType"))
  /\ (forall nameIndex descriptorIndex it,
        poolAt pool nameAndTypeIndex
        = Returned (nameAndType nameIndex descriptorIndex) ->
        poolAt pool nameIndex = Returned it -> ~ is_utf8String it ->
        methodRef_methodName c classIndex nameAndTypeIndex
        = Panicked (InterfaceConversion "utf8String"))
  /\ (forall s, methodRef_methodName c classIndex nameAndTypeIndex = Returned s <->
        exists nameIndex descriptorIndex,
          poolAt pool nameAndTypeIndex
          = Returned (nameAndType nameIndex descriptorIndex)
          /\ poolAt pool nameIndex = Returned (utf8String s)).
Proof.
  cbv zeta.
  destruct (class_hops (ConstantPoolItems c) (thisClass c))
    as (H1 & H2 & _ & _ & H3).
  destruct (nameAndType_hops (ConstantPoolItems c) nameAndTypeIndex)
    as (H4 & H5 & H6).
  repeat apply conj; assumption.
Qed.

(** C2, the claim as stated fails: a hop on a wrong kind is a panic. *)
Lemma C2_counterexample :
  poolAt (ConstantPoolItems crossedClass) (thisClass crossedClass)
  = Returned (utf8String "Foo")
  /\ Class_Name crossedClass = Panicked (InterfaceConversion "classInfo")
  /\ getMethodRefAt crossedClass 2 = Returned (3, 3)
  /\ methodRef_methodName crossedClass 3 3
     = Panicked (InterfaceConversion "nameAndType")
  /\ methodRef_className crossedClass 3 3 = Returned "Foo"%string.
Proof.
  repeat split; reflexivity.
Qed.

Lemma C2_witness :
  Class_Name crossedClass = Panicked (InterfaceConversion "classInfo")
  /\ getSuperName crossedClass = Returned "Foo"%string.
Proof.
  split; [|reflexivity].
  apply (proj1 (C2_wrong_kind_panics crossedClass 3 3) (utf8String "Foo")).
  - reflexivity.
  - intros [n Hn]. discriminate Hn.
Defined.

(* ------------------------------------------------------------------ *)
(** ** Method descriptors *)

Lemma sig_step_className (sig rest : string) (c : ascii) (s : list string) :
  parseSigniture_from sig (String c rest) s true
  = parseSigniture_from sig rest s (negb (is_char c ";")).
Proof.
  simpl. now destruct (Ascii.eqb c ";").
Qed.

Ltac case_char c :=
  repeat match goal with
    | |- context [Ascii.eqb c ?x] =>
        let E := fresh "E" in
        destruct (Ascii.eqb c x) eqn:E;
        [apply Ascii.eqb_eq in E; subst c; simpl in *;
         try discriminate; try (eexists; reflexivity); try reflexivity |]
    end.

Lemma sig_step_unrecognised (sig rest : string) (c : ascii) (s : list string) :
  recognised c = false ->
  parseSigniture_from sig (String c rest) s false
  = Panicked (LogPanic (cat ["Can't parse signiture: "%string; sig])).
Proof.
  unfold recognised. simpl. intros H. case_char c. reflexivity.
Qed.

Lemma sig_step_recognised (sig rest : string) (c : ascii) (s : list string) :
  recognised c = true ->
  exists s', parseSigniture_from sig (String c rest) s false
             = parseSigniture_from sig rest s' (is_char c "L").
Proof.
  unfold recognised. simpl. intros H. case_char c. discriminate H.
Qed.

Lemma sig_panics_from (sig pre post : string) (c : ascii) :
  forall (s : list string) (className : bool),
  classNameAfter className pre = false -> recognised c = false ->
  panics (parseSigniture_from sig (pre ++ String c post) s className).
Proof.
  induction pre as [|a pre IH]; intros s cn Hst Hc.
  - simpl in Hst. subst cn. simpl String.append.
    rewrite sig_step_unrecognised by assumption. eexists; reflexivity.
  - change (String a pre ++ String c post)%string
      with (String a (pre ++ String c post)).
    simpl in Hst. destruct cn.
    + rewrite sig_step_className. now apply IH.
    + destruct (recognised a) eqn:Ha.
      * destruct (sig_step_recognised sig (pre ++ String c post) a s Ha)
          as [s' ->].
        now apply IH.
      * rewrite sig_step_unrecognised by assumption. eexists; reflexivity.
Qed.

Lemma sig_panic_inv (sig rest : string) :
  forall (s : list string) (className : bool) (p : panic),
  parseSigniture_from sig rest s className = Panicked p ->
  p = LogPanic (cat ["Can't parse signiture: "%string; sig])
  /\ exists pre c post,
       rest = (pre ++ String c post)%string
       /\ classNameAfter className pre = false
       /\ recognised c = false.
Proof.
  induction rest as [|a rest IH]; intros s cn p H.
  - discriminate H.
  - destruct cn.
    + rewrite sig_step_className in H.
      destruct (IH _ _ _ H) as (Hp & pre & c & post & -> & Hst & Hc).
      split; [exact Hp|].
      exists (String a pre), c, post. repeat split; assumption.
    + destruct (recognised a) eqn:Ha.
      * destruct (sig_step_recognised sig rest a s Ha) as [s' E].
        rewrite E in H.
        destruct (IH _ _ _ H) as (Hp & pre & c & post & -> & Hst & Hc).
        split; [exact Hp|].
        exists (String a pre), c, post. repeat split; assumption.
      * rewrite sig_step_unrecognised in H by assumption.
        split; [congruence|].
        exists EmptyString, a, rest. repeat split. assumption.
Qed.

Lemma parseMethod_sig_panic (pool : list ConstantPoolItem) (cr : byteParser)
  (sig : string) (p : panic) :
  utf8At pool (descriptorIndexAt cr) = Returned sig ->
  parseSigniture sig = Panicked p ->
  parseMethod pool cr = Panicked p.
Proof.
  unfold descriptorIndexAt, parseMethod, bind, rd, lift.
  destruct (u2 cr) as [a cr1]; simpl.
  destruct (u2 cr1) as [n cr2]; simpl.
  destruct (u2 cr2) as [d cr3]; simpl.
  now intros -> ->.
Qed.

(** C8 (as the code has it): [parseSigniture] panics, through
    [log.Panicf], exactly when the descriptor holds a character without a
    [case] of its own at a place where the loop is not inside a class name
    (after an [L] every character up to the next [;] is skipped, whatever it
    is).  The panic is not confined to the method: the method loop of
    [ParseClass] calls [parseSigniture] directly, so a method whose
    descriptor panics makes the whole loop, and [ParseClass], panic. *)
Theorem C8_unrecognised_char_panics (sig : string) :
  (panics (parseSigniture sig) <->
     exists pre c post,
       sig = (pre ++ String c post)%string
       /\ classNameAfter false pre = false
       /\ recognised c = false)
  /\ (forall p, parseSigniture sig = Panicked p ->
        p = LogPanic (cat ["Can't parse signiture: "%string; sig])
        /\ forall pool cr n,
             utf8At pool (descriptorIndexAt cr) = Returned sig ->
             forN (S n) (parseMethod pool) cr = Panicked p).
Proof.
  split; [split|].
  - intros [p Hp]. apply (sig_panic_inv sig sig [] false p Hp).
  - intros (pre & c & post & Hs & Hst & Hc). unfold parseSigniture.
    rewrite Hs at 2. now apply sig_panics_from.
  - intros p Hp. split; [apply (sig_panic_inv sig sig [] false p Hp)|].
    intros pool cr n Hd. simpl. apply bind_Panicked.
    now apply parseMethod_sig_panic with (sig := sig).
Qed.

(** C8, the claim as stated fails: the unknown character is a panic, and
    the second method is never decoded. *)
Lemma C8_counterexample :
  parseSigniture "(X)V" = Panicked (LogPanic "Can't parse signiture: (X)V")
  /\ forN 2 (parseMethod [utf8String "(X)V"]) twoMethods
     = Panicked (LogPanic "Can't parse signiture: (X)V")
  /\ recognised "x" = false
  /\ parseSigniture "(Lx;)V" = Returned ["reference"%string; "void"%string].
Proof.
  repeat split; reflexivity.
Qed.

Lemma C8_witness :
  forN 2 (parseMethod [utf8String "(X)V"]) twoMethods
  = Panicked (LogPanic "Can't parse signiture: (X)V").
Proof.
  apply (proj2 (C8_unrecognised_char_panics "(X)V")); reflexivity.
Defined.

(* ------------------------------------------------------------------ *)
(** ** The hex listing *)










(* ------------------------------------------------------------------ *)
(** ** Shape of the Section forest: ranges and ids *)

Lemma chain_le (l : list Section) : forall lo hi, chain lo l hi -> lo <= hi.
Proof.
  induction l as [|c l IH]; simpl; intros lo hi H; [exact H|].
  destruct H as (H1 & H2 & H3). apply IH in H3. lia.
Qed.

Lemma chain_app (l l' : list Section) :
  forall lo mid hi, chain lo l mid -> chain mid l' hi -> chain lo (l ++ l') hi.
Proof.
  induction l as [|c l IH]; simpl; intros lo mid hi H H'.
  - destruct l' as [|c' l']; simpl in *; [lia|].
    destruct H' as (H1 & H2 & H3). repeat split; [lia|lia|exact H3].
  - destruct H as (H1 & H2 & H3). repeat split; try assumption.
    now apply IH with mid.
Qed.

Lemma chain_snoc (l : list Section) (c : Section) (lo : Z) :
  chain lo l (StartIndex c) -> StartIndex c <= EndIndex c ->
  chain lo (l ++ [c]) (EndIndex c).
Proof.
  intros H Hc. apply chain_app with (StartIndex c); [exact H|].
  simpl. lia.
Qed.

Lemma chain_weaken (l : list Section) :
  forall lo hi hi', chain lo l hi -> hi <= hi' -> chain lo l hi'.
Proof.
  induction l as [|c l IH]; simpl; intros lo hi hi' H Hle; [lia|].
  destruct H as (H1 & H2 & H3). repeat split; try assumption.
  now apply IH with hi.
Qed.

Lemma rising_le (l : list Z) : forall lo hi, rising lo l hi -> lo <= hi.
Proof.
  induction l as [|x l IH]; simpl; intros lo hi H; [exact H|].
  destruct H as (H1 & H2). apply IH in H2. lia.
Qed.

Lemma rising_app (l l' : list Z) :
  forall lo mid hi, rising lo l mid -> rising mid l' hi -> rising lo (l ++ l') hi.
Proof.
  induction l as [|x l IH]; simpl; intros lo mid hi H H'.
  - destruct l' as [|x' l']; simpl in *; [lia|].
    destruct H' as (H1 & H2). split; [lia|exact H2].
  - destruct H as (H1 & H2). split; [exact H1|]. now apply IH with mid.
Qed.

Lemma rising_weaken (l : list Z) :
  forall lo hi hi', rising lo l hi -> hi <= hi' -> rising lo l hi'.
Proof.
  induction l as [|x l IH]; simpl; intros lo hi hi' H Hle; [lia|].
  destruct H as (H1 & H2). split; [exact H1|]. now apply IH with hi.
Qed.

Lemma rising_bounds (l : list Z) :
  forall lo hi, rising lo l hi -> Forall (fun x => lo <= x < hi) l.
Proof.
  induction l as [|x l IH]; simpl; intros lo hi H; constructor.
  - destruct H as (H1 & H2). apply rising_le in H2. lia.
  - destruct H as (H1 & H2). apply IH in H2.
    eapply Forall_impl; [|exact H2]. simpl. intros y Hy. lia.
Qed.

Lemma rising_sorted (l : list Z) :
  forall lo hi, rising lo l hi -> StronglySorted Z.lt l.
Proof.
  induction l as [|x l IH]; simpl; intros lo hi H; constructor.
  - destruct H as (_ & H2). now apply IH in H2.
  - destruct H as (_ & H2). apply rising_bounds in H2.
    eapply Forall_impl; [|exact H2]. simpl. intros y Hy. lia.
Qed.

Lemma ids2_snoc (cs : list Section) (c : Section) :
  ids2 (cs ++ [c]) = ids2 cs ++ Id c :: map Id (Children c).
Proof.
  unfold ids2. rewrite flat_map_app, map_app. simpl.
  now rewrite app_nil_r.
Qed.

Lemma u1_nonneg (p : byteParser) : 0 <= fst (u1 p).
Proof. apply read_nonneg. Qed.
Lemma u2_nonneg (p : byteParser) : 0 <= fst (u2 p).
Proof. apply read_nonneg. Qed.
Lemma u4_nonneg (p : byteParser) : 0 <= fst (u4 p).
Proof. apply read_nonneg. Qed.
Lemma u8_nonneg (p : byteParser) : 0 <= fst (u8 p).
Proof. apply read_nonneg. Qed.

(** Case analysis on everything a hypothesis [H] scrutinises: reads of the
    cursor (keeping that the value read is not negative) and variables. *)
Ltac split_reads H :=
  repeat match type of H with
    | context [match ?x with _ => _ end] =>
        first
          [ is_var x; destruct x
          | lazymatch x with
            | u1 ?p => pose proof (u1_nonneg p)
            | u2 ?p => pose proof (u2_nonneg p)
            | u4 ?p => pose proof (u4_nonneg p)
            | u8 ?p => pose proof (u8_nonneg p)
            | readBytes _ _ => idtac
            end;
            destruct x as [? ?]; cbn [fst] in *
          | lazymatch x with
            | slice_from _ _ => destruct x; try discriminate H
            end
          | lazymatch x with
            | context [match _ with _ => _ end] => fail
            | _ => destruct x eqn:?
            end ]
    end.

Section SectionInvariants.

Variable fmt_float32 : Z -> string.
Variable fmt_float64 : Z -> string.

(** One turn of the constant-pool loop. *)
Lemma cpEntry_spec (i next : Z) (parser : byteParser) (g g' : Z) (t : turn) :
  cpEntry fmt_float32 fmt_float64 i next parser g = Returned (t, g') ->
  match t with
  | BreakLoop next' => next' = next + 1 /\ g' = g + 2
  | Entry item next' _ _ =>
      StartIndex item = next /\ EndIndex item = next' /\ Id item = g
      /\ entry_ok item /\ rising (g + 1) (map Id (Children item)) g'
  end.
Proof.
  intros H.
  cbv [cpEntry bind nextId ret leaf] in H.
  split_reads H;
    inversion H; subst; clear H;
    unfold entry_ok, leafy;
    repeat (cbn [StartIndex EndIndex Id Children map rising chain];
            match goal with
            | |- _ /\ _ => split
            | |- Forall _ _ => constructor
            | |- _ = _ => first [reflexivity | lia]
            | |- _ <= _ => lia
            end).
Qed.

Lemma cpLoop_spec (slots : nat) :
  forall i next parser children g next' children' g' lo glo,
  cpLoop fmt_float32 fmt_float64 slots i next parser children g
  = Returned ((next', children'), g') ->
  chain lo children next -> rising glo (ids2 children) g ->
  Forall entry_ok children ->
  chain lo children' next' /\ rising glo (ids2 children') g'
  /\ Forall entry_ok children' /\ exists more, children' = children ++ more.
Proof.
  induction slots as [slots IH] using (well_founded_induction lt_wf).
  intros i next parser children g next' children' g' lo glo H Hc Hr Hf.
  destruct slots as [|slots']; cbn [cpLoop] in H.
  - unfold ret in H. inversion H; subst. repeat split; try assumption.
    exists []. now rewrite app_nil_r.
  - bind_inv H. apply cpEntry_spec in E.
    destruct v as [item n1 p1 wide | n1].
    + destruct E as (Hs & He & Hi & Hok & Hri).
      assert (Hc' : chain lo (children ++ [item]) n1).
      { subst n1. apply chain_snoc; [now rewrite Hs|].
        apply (chain_le _ _ _ (proj1 Hok)). }
      assert (Hr' : rising glo (ids2 (children ++ [item])) cr).
      { rewrite ids2_snoc. apply rising_app with g; [exact Hr|].
        simpl. rewrite Hi. split; [lia|exact Hri]. }
      assert (Hf' : Forall entry_ok (children ++ [item])).
      { apply Forall_app. split; [exact Hf|]. now constructor. }
      destruct wide.
      * apply IH with (lo := lo) (glo := glo) in H; try assumption; [|lia].
        destruct H as (H1 & H2 & H3 & more & ->).
        repeat split; try assumption.
        exists (item :: more). now rewrite <- app_assoc.
      * apply IH with (lo := lo) (glo := glo) in H; try assumption; [|lia].
        destruct H as (H1 & H2 & H3 & more & ->).
        repeat split; try assumption.
        exists (item :: more). now rewrite <- app_assoc.
    + destruct E as (-> & ->). unfold ret in H. inversion H; subst.
      repeat split.
      * apply chain_weaken with next; [assumption|lia].
      * apply rising_weaken with g; [assumption|lia].
      * assumption.
      * exists []. now rewrite app_nil_r.
Qed.

Ltac top_ok_leafs :=
  unfold top_ok, entry_ok, leafy, ids2;
  repeat (cbn [StartIndex EndIndex Id Children map rising chain hd
               flat_map creation_item app];
          match goal with
          | |- _ /\ _ => split
          | |- Forall _ _ => constructor
          | |- _ = _ => first [reflexivity | lia]
          | |- _ <= _ => lia
          | |- _ \/ flags_like _ => left
          end).

Lemma parseMagicNumber_ok : func_ok parseMagicNumber.
Proof.
  intros bytes index g next section g' H.
  cbv [parseMagicNumber bind lift nextId ret leaf obind newByteParser] in H.
  split_reads H; inversion H; subst; clear H; try (split; reflexivity).
  top_ok_leafs.
Qed.

Lemma parseVersion_ok : func_ok parseVersion.
Proof.
  intros bytes index g next section g' H.
  cbv [parseVersion bind lift nextId ret leaf obind newByteParser] in H.
  split_reads H; inversion H; subst; clear H; try (split; reflexivity).
  top_ok_leafs.
Qed.

Lemma parseThisClass_ok : func_ok parseThisClass.
Proof.
  intros bytes index g next section g' H.
  cbv [parseThisClass bind lift nextId ret leaf obind newByteParser] in H.
  split_reads H; inversion H; subst; clear H.
  top_ok_leafs.
Qed.

Lemma parseSuperClass_ok : func_ok parseSuperClass.
Proof.
  intros bytes index g next section g' H.
  cbv [parseSuperClass bind lift nextId ret leaf obind newByteParser] in H.
  split_reads H; inversion H; subst; clear H.
  top_ok_leafs.
Qed.

Lemma parseAccessFlags_flags bytes index g next section g' :
  parseAccessFlags bytes index g = Returned ((next, section), g') ->
  exists s, section = Some s /\ flags_like s /\ top_ok index next g g' s.
Proof.
  intros H.
  cbv [parseAccessFlags bind lift nextId ret leaf obind newByteParser] in H.
  split_reads H; inversion H; subst; clear H.
  eexists. split; [reflexivity|].
  assert (Hfl : forall cs id,
             map range cs
             = repeat (index + 1, index + 2) 4 ++ repeat (index, index + 1) 6 ->
             flags_like (mkSection index (index + 2) "access flags" cs id)).
  { intros cs id Hcs. unfold flags_like. cbn [Name StartIndex EndIndex Children].
    repeat split. exact Hcs. }
  split; [apply Hfl; reflexivity|].
  unfold top_ok, entry_ok, leafy, ids2.
  repeat (cbn [StartIndex EndIndex Id Children map rising chain hd
               flat_map creation_item app];
          match goal with
          | |- _ /\ _ => split
          | |- Forall _ _ => constructor
          | |- _ = _ => first [reflexivity | lia]
          | |- _ <= _ => lia
          | |- _ \/ flags_like _ => right; apply Hfl; reflexivity
          end).
Qed.

Lemma parseAccessFlags_ok : func_ok parseAccessFlags.
Proof.
  intros bytes index g next section g' H.
  apply parseAccessFlags_flags in H. now destruct H as (s & -> & _ & H).
Qed.

Lemma parseConstantPool_ok : func_ok (parseConstantPool fmt_float32 fmt_float64).
Proof.
  intros bytes index g next section g' H.
  cbv [parseConstantPool bind lift nextId ret leaf obind newByteParser] in H.
  destruct (slice_from bytes index) as [rest|]; [|discriminate H].
  destruct (u2 _) as [count p].
  match type of H with
  | context [cpLoop _ _ ?n ?i ?nx ?ps ?ch ?gg] =>
      destruct (cpLoop fmt_float32 fmt_float64 n i nx ps ch gg)
        as [[[n1 ch1] g1]|] eqn:E; [|discriminate H]
  end.
  inversion H; subst; clear H.
  apply cpLoop_spec with (lo := index) (glo := g) in E.
  - destruct E as (Hc & Hr & Hf & more & ->).
    unfold top_ok. cbn [StartIndex EndIndex Id Children].
    replace (g1 + 1 - 1) with g1 by lia.
    split; [reflexivity|]. split; [reflexivity|].
    split; [apply (chain_le _ _ _ Hc)|]. split; [lia|].
    split; [exact Hr|]. split; [reflexivity|]. split; [exact Hf|].
    left. exact Hc.
  - simpl. lia.
  - unfold ids2. simpl. lia.
  - constructor; [|constructor]. unfold entry_ok. simpl. split; [lia|constructor].
Qed.

Lemma interfacesLoop_spec (n : nat) :
  forall next parser children g next' children' g' lo glo,
  interfacesLoop n next parser children g = Returned ((next', children'), g') ->
  chain lo children next -> rising glo (ids2 children) g ->
  Forall entry_ok children ->
  chain lo children' next' /\ rising glo (ids2 children') g'
  /\ Forall entry_ok children'
  /\ exists more, children' = children ++ more
       /\ (more = [] /\ g' = g \/ exists c more', more = c :: more' /\ Id c = g).
Proof.
  induction n as [|n IH];
    intros next parser children g next' children' g' lo glo H Hc Hr Hf;
    cbn [interfacesLoop] in H.
  - unfold ret in H. inversion H; subst. repeat split; try assumption.
    exists []. rewrite app_nil_r. split; [reflexivity|]. now left.
  - cbv [bind nextId leaf] in H. destruct (u2 parser) as [x p].
    apply IH with (lo := lo) (glo := glo) in H.
    + destruct H as (H1 & H2 & H3 & more & -> & _).
      repeat split; try assumption.
      eexists. rewrite <- app_assoc. split; [reflexivity|].
      right. do 2 eexists. split; reflexivity.
    + apply chain_app with next; [exact Hc|]. simpl. lia.
    + rewrite ids2_snoc. apply rising_app with g; [exact Hr|]. simpl. lia.
    + apply Forall_app. split; [exact Hf|]. constructor; [|constructor].
      unfold entry_ok. simpl. split; [lia|constructor].
Qed.

Lemma parseInterfaces_ok : func_ok parseInterfaces.
Proof.
  intros bytes index g next section g' H.
  cbv [parseInterfaces bind lift nextId ret leaf obind newByteParser] in H.
  destruct (slice_from bytes index) as [rest|]; [|discriminate H].
  destruct (u2 _) as [count p].
  match type of H with
  | context [interfacesLoop ?n ?nx ?ps ?ch ?gg] =>
      destruct (interfacesLoop n nx ps ch gg)
        as [[[n1 ch1] g1]|] eqn:E; [|discriminate H]
  end.
  inversion H; subst; clear H.
  apply interfacesLoop_spec with (lo := index) (glo := g) in E.
  - destruct E as (Hc & Hr & Hf & more & -> & Hhd).
    unfold top_ok. cbn [StartIndex EndIndex Id Children app].
    replace (g1 + 1 - 1) with g1 by lia.
    assert (Hc' : chain index more next) by exact Hc.
    split; [reflexivity|]. split; [reflexivity|].
    split; [apply (chain_le _ _ _ Hc')|]. split; [lia|].
    split; [exact Hr|].
    split; [destruct Hhd as [[-> ->]|(c & more' & -> & Hid)];
            [reflexivity|exact Hid]|].
    split; [exact Hf|]. left. exact Hc'.
  - simpl. lia.
  - unfold ids2. simpl. lia.
  - constructor.
Qed.

Lemma parsingFuncs_ok : Forall func_ok (parsingFuncs fmt_float32 fmt_float64).
Proof.
  unfold parsingFuncs. repeat constructor.
  - apply parseMagicNumber_ok.
  - apply parseVersion_ok.
  - apply parseConstantPool_ok.
  - apply parseAccessFlags_ok.
  - apply parseThisClass_ok.
  - apply parseSuperClass_ok.
  - apply parseInterfaces_ok.
Qed.

Lemma forest_snoc (l : list Section) :
  forall lo glo mid gmid next g' s,
  forest lo glo l mid gmid -> top_ok mid next gmid g' s ->
  forest lo glo (l ++ [s]) next g'.
Proof.
  induction l as [|a l IH]; simpl; intros lo glo mid gmid next g' s H Hs.
  - destruct H as [-> ->].
    assert (He : EndIndex s = next) by apply Hs.
    exists g'. rewrite He. split; [exact Hs|split; reflexivity].
  - destruct H as (g2 & Ha & Hl). exists g2. split; [exact Ha|].
    now apply IH with mid gmid.
Qed.

Lemma runFuncs_spec (fs : list parsingFunc) :
  Forall func_ok fs ->
  forall bytes index sections g out g' lo glo,
  runFuncs fs bytes index sections g = Returned (out, g') ->
  forest lo glo sections index g ->
  exists hi, forest lo glo out hi g'.
Proof.
  induction 1 as [|f fs Hf _ IH];
    intros bytes index sections g out g' lo glo H Hfo; cbn [runFuncs] in H.
  - unfold ret in H. inversion H; subst. now exists index.
  - bind_inv H. destruct v as [next section]. apply Hf in E.
    destruct section as [s|].
    + apply IH with (lo := lo) (glo := glo) in H; [exact H|].
      now apply forest_snoc with index g.
    + destruct E as [-> ->]. now apply IH with (lo := lo) (glo := glo) in H.
Qed.

Lemma runFuncs_keeps (fs : list parsingFunc) :
  forall bytes index sections g out g',
  runFuncs fs bytes index sections g = Returned (out, g') ->
  exists more, out = sections ++ more.
Proof.
  induction fs as [|f fs IH]; intros bytes index sections g out g' H;
    cbn [runFuncs] in H.
  - unfold ret in H. inversion H; subst. exists []. now rewrite app_nil_r.
  - bind_inv H. destruct v as [next [s|]].
    + apply IH in H. destruct H as [more ->].
      exists (s :: more). now rewrite <- app_assoc.
    + now apply IH in H.
Qed.

Lemma runFuncs_flags (fs : list parsingFunc) :
  In parseAccessFlags fs ->
  forall bytes index sections g out g',
  runFuncs fs bytes index sections g = Returned (out, g') ->
  exists s, In s out /\ flags_like s.
Proof.
  induction fs as [|f fs IH]; intros Hin bytes index sections g out g' H;
    [contradiction|].
  cbn [runFuncs] in H. bind_inv H. destruct v as [next section].
  destruct Hin as [->|Hin].
  - apply parseAccessFlags_flags in E. destruct E as (s & -> & Hfl & _).
    apply runFuncs_keeps in H. destruct H as [more ->].
    exists s. split; [|exact Hfl].
    apply in_or_app. left. apply in_or_app. right. now left.
  - destruct section as [s|]; now apply IH in H.
Qed.

Lemma parseClass_forest (bytes : list byte) (sections : list Section) :
  parseClass fmt_float32 fmt_float64 bytes = Returned sections ->
  (exists hi ghi, forest 0 0 sections hi ghi)
  /\ exists s, In s sections /\ flags_like s.
Proof.
  unfold parseClass. intros H.
  destruct (runFuncs _ bytes 0 [] 0) as [[out g']|] eqn:E; [|discriminate H].
  inversion H; subst out; clear H. split.
  - apply runFuncs_spec with (lo := 0) (glo := 0) in E.
    + destruct E as [hi E]. now exists hi, g'.
    + apply parsingFuncs_ok.
    + simpl. auto.
  - apply runFuncs_flags in E; [exact E|].
    unfold parsingFuncs. simpl. tauto.
Qed.

(* -- ranges -- *)

Lemma subsections_eq (s : Section) :
  subsections s = s :: flat_map subsections (Children s).
Proof. now destruct s. Qed.

Lemma chain_contained (l : list Section) :
  forall lo hi, chain lo l hi ->
  Forall (fun c => lo <= StartIndex c /\ EndIndex c <= hi) l.
Proof.
  induction l as [|c l IH]; simpl; intros lo hi H; constructor.
  - destruct H as (H1 & H2 & H3). apply chain_le in H3. lia.
  - destruct H as (H1 & H2 & H3). apply IH in H3.
    eapply Forall_impl; [|exact H3]. simpl. intros d Hd. lia.
Qed.

Lemma chain_ordered (l : list Section) :
  forall lo hi, chain lo l hi -> ordered l.
Proof.
  induction l as [|c l IH]; simpl; intros lo hi H; constructor.
  - destruct H as (H1 & H2 & H3). apply chain_contained in H3.
    eapply Forall_impl; [|exact H3]. simpl. intros d Hd. unfold before. lia.
  - destruct H as (_ & _ & H3). now apply IH in H3.
Qed.

Lemma chain_node (x : Section) :
  chain (StartIndex x) (Children x) (EndIndex x) -> node_ok x.
Proof.
  intros H. split; [apply (chain_le _ _ _ H)|]. split.
  - apply chain_contained in H. exact H.
  - left. now apply chain_ordered in H.
Qed.

Lemma leafy_subsections (l : list Section) :
  Forall leafy l -> flat_map subsections l = l.
Proof.
  induction 1 as [|g l [Hg _] _ IH]; [reflexivity|].
  cbn [flat_map]. rewrite subsections_eq, Hg, IH. reflexivity.
Qed.

Lemma leafy_node (g : Section) : leafy g -> node_ok g.
Proof.
  intros [Hc Hr]. apply chain_node. now rewrite Hc.
Qed.

Lemma entry_subsections (c : Section) :
  entry_ok c -> subsections c = creation_item c.
Proof.
  intros [_ Hl]. rewrite subsections_eq. unfold creation_item.
  now rewrite leafy_subsections.
Qed.

Lemma entries_subsections (cs : list Section) :
  Forall entry_ok cs -> flat_map subsections cs = flat_map creation_item cs.
Proof.
  induction 1 as [|c cs Hc _ IH]; [reflexivity|].
  cbn [flat_map]. now rewrite entry_subsections, IH.
Qed.

Lemma entry_nodes (c : Section) :
  entry_ok c -> Forall node_ok (creation_item c).
Proof.
  intros [Hc Hl]. constructor; [now apply chain_node|].
  eapply Forall_impl; [|exact Hl]. apply leafy_node.
Qed.

Lemma flags_contained (s : Section) :
  flags_like s -> Forall (contained s) (Children s).
Proof.
  intros (_ & He & Hm).
  assert (H : Forall (fun r => StartIndex s <= fst r /\ snd r <= EndIndex s)
                     (map range (Children s))).
  { rewrite Hm, He. simpl. repeat constructor; simpl; lia. }
  rewrite Forall_map in H. exact H.
Qed.

Lemma top_nodes (index next g g' : Z) (s : Section) :
  top_ok index next g g' s -> Forall node_ok (subsections s).
Proof.
  intros (Hs & He & Hle & _ & _ & _ & Hen & Hsh).
  rewrite subsections_eq. constructor.
  - destruct Hsh as [Hc|Hfl].
    + apply chain_node. now rewrite Hs, He.
    + split; [lia|]. split; [now apply flags_contained|now right].
  - rewrite entries_subsections by exact Hen.
    clear - Hen. induction Hen as [|c cs Hc _ IH]; [constructor|].
    cbn [flat_map]. apply Forall_app. split; [now apply entry_nodes|exact IH].
Qed.

Lemma forest_chain (l : list Section) :
  forall lo glo hi ghi, forest lo glo l hi ghi -> chain lo l hi.
Proof.
  induction l as [|s l IH]; simpl; intros lo glo hi ghi H.
  - destruct H as [-> _]. lia.
  - destruct H as (g2 & Hs & Hl). apply IH in Hl.
    destruct Hs as (Hs & He & Hle & _). repeat split; [lia|lia|exact Hl].
Qed.

Lemma forest_nodes (l : list Section) :
  forall lo glo hi ghi, forest lo glo l hi ghi ->
  Forall node_ok (allSections l).
Proof.
  unfold allSections.
  induction l as [|s l IH]; simpl; intros lo glo hi ghi H; [constructor|].
  destruct H as (g2 & Hs & Hl). apply Forall_app. split.
  - now apply top_nodes in Hs.
  - now apply IH in Hl.
Qed.

(** C4 (as the code has it): in every decode that returns, the top-level
    Sections are ordered by start offset and pairwise non-overlapping; every
    Section has [start <= end] and holds the ranges of its children; and the
    children of every Section are ordered by start offset and pairwise
    non-overlapping, except in the access-flags Section, which every decode
    has: its ten children share its two bytes, the first four on the second
    byte and the last six on the first byte. *)
Theorem C4_ranges (bytes : list byte) (sections : list Section) :
  parseClass fmt_float32 fmt_float64 bytes = Returned sections ->
  ordered sections
  /\ (forall s, In s (allSections sections) ->
        StartIndex s <= EndIndex s
        /\ Forall (contained s) (Children s)
        /\ (ordered (Children s) \/ flags_like s))
  /\ (exists s, In s sections /\ flags_like s).
Proof.
  intros H. apply parseClass_forest in H.
  destruct H as ((hi & ghi & Hf) & Hfl). split; [|split].
  - apply forest_chain in Hf. now apply chain_ordered in Hf.
  - apply forest_nodes in Hf. rewrite Forall_forall in Hf. exact Hf.
  - exact Hfl.
Qed.

(* -- ids -- *)

Lemma rising_after (l1 l2 : list Z) (x : Z) :
  forall lo hi, rising lo (l1 ++ x :: l2) hi -> Forall (fun y => x < y) l2.
Proof.
  induction l1 as [|a l1 IH]; simpl; intros lo hi H.
  - destruct H as (_ & H). apply rising_bounds in H.
    eapply Forall_impl; [|exact H]. simpl. intros y Hy. lia.
  - destruct H as (_ & H). now apply IH in H.
Qed.

Lemma sorted_NoDup (l : list Z) : StronglySorted Z.lt l -> NoDup l.
Proof.
  induction 1 as [|x l _ IH Hx]; constructor; [|exact IH].
  intros Hin. rewrite Forall_forall in Hx. apply Hx in Hin. lia.
Qed.

Lemma top_rising (index next g g' : Z) (s : Section) :
  top_ok index next g g' s -> rising g (map Id (creation_top s)) g'.
Proof.
  intros (_ & _ & _ & Hid & Hr & _). unfold creation_top.
  rewrite map_app. apply rising_app with (g' - 1); [exact Hr|].
  simpl. lia.
Qed.

Lemma forest_rising (l : list Section) :
  forall lo glo hi ghi, forest lo glo l hi ghi ->
  rising glo (map Id (creation l)) ghi.
Proof.
  unfold creation.
  induction l as [|s l IH]; simpl; intros lo glo hi ghi H.
  - destruct H as [_ ->]. lia.
  - destruct H as (g2 & Hs & Hl). rewrite map_app.
    apply rising_app with g2; [now apply top_rising in Hs|now apply IH in Hl].
Qed.

Lemma forest_first_id (l : list Section) (s : Section) :
  forall lo glo hi ghi, forest lo glo (s :: l) hi ghi ->
  hd_error (map Id (creation (s :: l))) = Some glo.
Proof.
  intros lo glo hi ghi (g2 & Hs & _).
  destruct Hs as (_ & _ & _ & _ & _ & Hhd & _).
  unfold creation, creation_top. cbn [flat_map]. rewrite !map_app.
  fold (ids2 (Children s)).
  destruct (ids2 (Children s)) as [|x ids]; simpl in *; now rewrite Hhd.
Qed.

Lemma top_permutation (index next g g' : Z) (s : Section) :
  top_ok index next g g' s -> Permutation (creation_top s) (subsections s).
Proof.
  intros (_ & _ & _ & _ & _ & _ & Hen & _).
  rewrite subsections_eq, entries_subsections by exact Hen.
  unfold creation_top. apply Permutation_sym, Permutation_cons_append.
Qed.

Lemma forest_permutation (l : list Section) :
  forall lo glo hi ghi, forest lo glo l hi ghi ->
  Permutation (creation l) (allSections l).
Proof.
  unfold creation, allSections.
  induction l as [|s l IH]; simpl; intros lo glo hi ghi H; [constructor|].
  destruct H as (g2 & Hs & Hl). apply Permutation_app.
  - now apply top_permutation in Hs.
  - now apply IH in Hl.
Qed.

Lemma forest_top (l : list Section) :
  forall lo glo hi ghi, forest lo glo l hi ghi ->
  forall s, In s l -> exists index next g g', top_ok index next g g' s.
Proof.
  induction l as [|a l IH]; simpl; intros lo glo hi ghi H s Hin;
    [contradiction|].
  destruct H as (g2 & Ha & Hl). destruct Hin as [<-|Hin].
  - now exists lo, (EndIndex a), glo, g2.
  - now apply IH with (s := s) in Hl.
Qed.

Lemma top_descendants (index next g g' : Z) (s d : Section) :
  top_ok index next g g' s -> In d (tl (subsections s)) -> Id d < Id s.
Proof.
  intros (_ & _ & _ & Hid & Hr & _ & Hen & _) Hd.
  rewrite subsections_eq, entries_subsections in Hd by exact Hen.
  cbn [tl] in Hd. apply rising_bounds in Hr. rewrite Forall_forall in Hr.
  assert (Hin : In (Id d) (ids2 (Children s))) by now apply in_map.
  apply Hr in Hin. lia.
Qed.

Lemma top_entries (index next g g' : Z) (s c x : Section) :
  top_ok index next g g' s -> In c (Children s) -> In x (Children c) ->
  Id c < Id x.
Proof.
  intros (_ & _ & _ & _ & Hr & _) Hc Hx.
  apply in_split in Hc. destruct Hc as (l1 & l2 & Hc).
  unfold ids2 in Hr. rewrite Hc, flat_map_app, map_app in Hr.
  cbn [flat_map creation_item app map] in Hr.
  apply rising_after in Hr. rewrite Forall_forall in Hr.
  apply Hr. rewrite map_app. apply in_or_app. left. now apply in_map.
Qed.

(** C5 (as the code has it): ids come from one counter, set to 0 at the
    start of the decode, in the order the Sections are made.  That order is
    not a depth-first visitation: below a top-level Section every
    second-level Section is numbered just before its own children, and the
    top-level Section is numbered last.  Along that order ([creation], which
    lists every Section of the forest once) the ids are strictly increasing
    and start at 0; hence ids are pairwise distinct, a top-level Section has
    a larger id than everything below it, and a second-level Section (such
    as a constant-pool entry) has a smaller id than its children. *)
Theorem C5_ids (bytes : list byte) (sections : list Section) :
  parseClass fmt_float32 fmt_float64 bytes = Returned sections ->
  StronglySorted Z.lt (map Id (creation sections))
  /\ hd_error (map Id (creation sections)) = Some 0
  /\ Permutation (creation sections) (allSections sections)
  /\ NoDup (map Id (allSections sections))
  /\ (forall s d, In s sections -> In d (tl (subsections s)) -> Id d < Id s)
  /\ (forall s c x, In s sections -> In c (Children s) -> In x (Children c) ->
        Id c < Id x).
Proof.
  intros H. apply parseClass_forest in H.
  destruct H as ((hi & ghi & Hf) & (fl & Hfl & _)).
  assert (Hsorted : StronglySorted Z.lt (map Id (creation sections))).
  { apply forest_rising in Hf. now apply rising_sorted in Hf. }
  assert (Hperm : Permutation (creation sections) (allSections sections))
    by now apply forest_permutation in Hf.
  split; [exact Hsorted|]. split; [|split; [exact Hperm|split; [|split]]].
  - destruct sections as [|s l]; [contradiction|].
    now apply forest_first_id in Hf.
  - apply Permutation_NoDup with (map Id (creation sections)).
    + now apply Permutation_map.
    + now apply sorted_NoDup.
  - intros s d Hs Hd. destruct (forest_top _ _ _ _ _ Hf s Hs)
      as (index & next & g & g' & Ht).
    now apply top_descendants with index next g g'.
  - intros s c x Hs Hc Hx. destruct (forest_top _ _ _ _ _ Hf s Hs)
      as (index & next & g & g' & Ht).
    now apply top_entries with index next g g' s.
Qed.

(* -- panics -- *)

Lemma slice_from_panic {A} (s : list A) (start : Z) (p : panic) :
  slice_from s start = Panicked p ->
  p = SliceBoundsOutOfRange start (len s) /\ ~ (0 <= start <= len s).
Proof.
  unfold slice_from.
  destruct (Z.leb_spec 0 start); destruct (Z.leb_spec start (len s)); simpl;
    intros Hp; inversion Hp; split; try reflexivity; lia.
Qed.

Lemma cpEntry_returns (i next : Z) (parser : byteParser) (g : Z) :
  exists t g', cpEntry fmt_float32 fmt_float64 i next parser g = Returned (t, g').
Proof.
  cbv [cpEntry bind nextId ret leaf].
  repeat match goal with
    | |- context [match ?x with _ => _ end] => destruct x
    end;
    do 2 eexists; reflexivity.
Qed.

Lemma cpLoop_returns (slots : nat) :
  forall i next parser children g,
  exists r, cpLoop fmt_float32 fmt_float64 slots i next parser children g
            = Returned r.
Proof.
  induction slots as [slots IH] using (well_founded_induction lt_wf).
  intros i next parser children g.
  destruct slots as [|slots']; cbn [cpLoop].
  - eexists. reflexivity.
  - unfold bind at 1.
    destruct (cpEntry_returns i next parser g) as (t & g' & ->).
    destruct t as [item n1 p1 [|] | n1].
    + apply IH. lia.
    + apply IH. lia.
    + eexists. reflexivity.
Qed.

Lemma interfacesLoop_returns (n : nat) :
  forall next parser children g,
  exists r, interfacesLoop n next parser children g = Returned r.
Proof.
  induction n as [|n IH]; intros next parser children g; cbn [interfacesLoop].
  - eexists. reflexivity.
  - cbv [bind nextId]. destruct (u2 parser) as [x p]. apply IH.
Qed.

Ltac only_slice_panics H :=
  match type of H with
  | context [slice_from ?b ?i] =>
      let E := fresh "E" in
      destruct (slice_from b i) eqn:E;
      [ | inversion H; subst; now apply slice_from_panic in E ]
  end.

Lemma parseMagicNumber_panic : func_panic_ok parseMagicNumber.
Proof.
  intros bytes index g p H.
  cbv [parseMagicNumber bind lift nextId ret leaf obind newByteParser] in H.
  destruct (4 <=? len bytes); [|discriminate H].
  only_slice_panics H. split_reads H; discriminate H.
Qed.

Lemma parseVersion_panic : func_panic_ok parseVersion.
Proof.
  intros bytes index g p H.
  cbv [parseVersion bind lift nextId ret leaf obind newByteParser] in H.
  destruct (4 <=? len bytes); [|discriminate H].
  only_slice_panics H. split_reads H; discriminate H.
Qed.

Lemma parseThisClass_panic : func_panic_ok parseThisClass.
Proof.
  intros bytes index g p H.
  cbv [parseThisClass bind lift nextId ret leaf obind newByteParser] in H.
  only_slice_panics H. split_reads H; discriminate H.
Qed.

Lemma parseSuperClass_panic : func_panic_ok parseSuperClass.
Proof.
  intros bytes index g p H.
  cbv [parseSuperClass bind lift nextId ret leaf obind newByteParser] in H.
  only_slice_panics H. split_reads H; discriminate H.
Qed.

Lemma parseAccessFlags_panic : func_panic_ok parseAccessFlags.
Proof.
  intros bytes index g p H.
  cbv [parseAccessFlags bind lift nextId ret leaf obind newByteParser] in H.
  only_slice_panics H. split_reads H; discriminate H.
Qed.

Lemma parseInterfaces_panic : func_panic_ok parseInterfaces.
Proof.
  intros bytes index g p H.
  cbv [parseInterfaces bind lift nextId ret leaf obind newByteParser] in H.
  only_slice_panics H. destruct (u2 _) as [count ps].
  match type of H with
  | context [interfacesLoop ?n ?nx ?pp ?ch ?gg] =>
      destruct (interfacesLoop_returns n nx pp ch gg) as [[[n1 ch1] g1] E1];
      rewrite E1 in H
  end.
  discriminate H.
Qed.

Lemma parseConstantPool_panic :
  func_panic_ok (parseConstantPool fmt_float32 fmt_float64).
Proof.
  intros bytes index g p H.
  cbv [parseConstantPool bind lift nextId ret leaf obind newByteParser] in H.
  only_slice_panics H. destruct (u2 _) as [count ps].
  match type of H with
  | context [cpLoop _ _ ?n ?i ?nx ?pp ?ch ?gg] =>
      destruct (cpLoop_returns n i nx pp ch gg) as [[[n1 ch1] g1] E1];
      rewrite E1 in H
  end.
  discriminate H.
Qed.

Lemma parsingFuncs_panic :
  Forall func_panic_ok (parsingFuncs fmt_float32 fmt_float64).
Proof.
  unfold parsingFuncs. repeat first [apply Forall_cons | apply Forall_nil].
  - apply parseMagicNumber_panic.
  - apply parseVersion_panic.
  - apply parseConstantPool_panic.
  - apply parseAccessFlags_panic.
  - apply parseThisClass_panic.
  - apply parseSuperClass_panic.
  - apply parseInterfaces_panic.
Qed.

Lemma runFuncs_panic (fs : list parsingFunc) :
  Forall func_ok fs -> Forall func_panic_ok fs ->
  forall bytes index sections g p,
  0 <= index ->
  runFuncs fs bytes index sections g = Panicked p ->
  exists low, p = SliceBoundsOutOfRange low (len bytes) /\ len bytes < low.
Proof.
  induction fs as [|f fs IH]; intros Hok Hpa bytes index sections g p Hi H;
    cbn [runFuncs] in H; [discriminate H|].
  inversion Hok as [|? ? Hf Hok']; subst.
  inversion Hpa as [|? ? Hfp Hpa']; subst.
  unfold bind at 1 in H.
  destruct (f bytes index g) as [[[next section] g1]|q] eqn:E.
  - apply Hf in E.
    assert (Hn : 0 <= next).
    { destruct section as [s|]; [|destruct E as [-> _]; exact Hi].
      destruct E as (_ & _ & Hle & _). lia. }
    destruct section as [s|]; now apply IH in H.
  - inversion H; subst q. apply Hfp in E. destruct E as [-> Hout].
    exists index. split; [reflexivity|lia].
Qed.

(** X13: the provenance pass has one way to fail: when it does not return
    its Sections, it has sliced the buffer at an offset past its end. *)
Lemma parseClass_only_panic (bytes : list byte) (p : panic) :
  parseClass fmt_float32 fmt_float64 bytes = Panicked p ->
  exists low, p = SliceBoundsOutOfRange low (len bytes) /\ len bytes < low.
Proof.
  unfold parseClass. intros H.
  destruct (runFuncs _ bytes 0 [] 0) as [[out g']|q] eqn:E; [discriminate H|].
  inversion H; subst q.
  apply runFuncs_panic in E; try exact E; try lia.
  - apply parsingFuncs_ok.
  - apply parsingFuncs_panic.
Qed.

End SectionInvariants.

(* ------------------------------------------------------------------ *)
(** ** Eight-byte constants *)

Lemma u1_next (parser : byteParser) (b : byte) (rest : list byte) :
  reader parser = b :: rest -> err parser = None ->
  u1 parser = (byte_val b, {| reader := rest; err := None |}).
Proof.
  intros Hr He. unfold u1. rewrite read_enough; [|exact He|rewrite Hr; simpl; lia].
  rewrite Hr. reflexivity.
Qed.

(** C7 (as the code has it): in the provenance pass an entry with tag 5 or
    6 takes nine bytes and three ids and makes the loop step by two, so no
    Section is made for the slot after it and the next entry is labelled
    with the index after that slot.  The model pass decodes no pool at all:
    on a class returned by [ParseClass] a lookup of any index, the skipped
    one included, ends in an index-out-of-range panic; it is never resolved
    to a value, and no checked result reports it. *)
Theorem C7_wide_entries (fmt_float32 fmt_float64 : Z -> string) :
  (forall slots i next parser children g b rest,
     reader parser = b :: rest -> err parser = None ->
     byte_val b = 5 \/ byte_val b = 6 ->
     exists item parser',
       cpEntry fmt_float32 fmt_float64 i next parser g
       = Returned (Entry item (next + 9) parser' true, g + 3)
       /\ range item = (next, next + 9)
       /\ cpLoop fmt_float32 fmt_float64 (S slots) i next parser children g
          = cpLoop fmt_float32 fmt_float64 (Nat.pred slots) (i + 2) (next + 9)
                   parser' (children ++ [item]) (g + 3))
  /\ (forall r c e, ParseClass r = Returned (c, e) ->
      forall index,
        getConstantPoolItemAt c index
        = Panicked (IndexOutOfRange (uint16 (index - 1)) 0)).
Proof.
  split.
  - intros slots i next parser children g b rest Hr He Hb.
    assert (Hentry : exists item parser',
               cpEntry fmt_float32 fmt_float64 i next parser g
               = Returned (Entry item (next + 9) parser' true, g + 3)
               /\ range item = (next, next + 9)).
    { cbv [cpEntry bind nextId ret leaf]. rewrite (u1_next parser b rest Hr He).
      destruct Hb as [-> | ->];
        destruct (u8 {| reader := rest; err := None |}) as [x p'];
        do 2 eexists;
        (split;
         [replace (g + 3) with (g + 1 + 1 + 1) by lia;
          replace (next + 9) with (next + 1 + 8) by lia; reflexivity
         | unfold range; cbn [StartIndex EndIndex]; f_equal; lia]). }
    destruct Hentry as (item & parser' & Hent & Hrange).
    exists item, parser'. split; [exact Hent|]. split; [exact Hrange|].
    cbn [cpLoop]. unfold bind at 1. rewrite Hent. reflexivity.
  - intros r c e H index.
    destruct (ParseClass_no_pool r c e H) as (Hpool & _).
    unfold getConstantPoolItemAt. rewrite Hpool. apply poolAt_nil.
Qed.

(* ------------------------------------------------------------------ *)
(** ** Sample decodes *)

(** C1, the claim as stated fails: without the magic number the provenance
    pass still returns Sections; the first four bytes are listed as a
    version. *)
Lemma C1_counterexample :
  firstn 4 badMagicFile <> magicBytes
  /\ exists sections,
       parseClass noFloats noFloats badMagicFile = Returned sections
       /\ map range sections = [(0, 4); (4, 6); (6, 8); (8, 10); (10, 12); (12, 14)]
       /\ option_map Name (hd_error sections) = Some "version 0.0"%string.
Proof.
  split; [discriminate|].
  eexists. split; [vm_compute; reflexivity|]. split; reflexivity.
Qed.

Lemma C1_witness :
  ParseClass badMagicFile = Returned (zeroClass, Some BadMagicNumber)
  /\ parseMagicNumber badMagicFile 0 0 = Returned ((0, None), 0).
Proof.
  assert (Hm : firstn 4 badMagicFile <> magicBytes) by discriminate.
  destruct (C1_bad_magic noFloats noFloats badMagicFile Hm) as (H1 & H2 & _).
  split; assumption.
Defined.

(** C4, the claim as stated fails: the ten children of the access-flags
    Section (the fourth top-level Section) overlap one another, and the
    fifth starts before the first. *)
Lemma C4_counterexample :
  parseClass noFloats noFloats emptyClassFile = Returned emptyClassSections
  /\ exists flags,
       nth_error emptyClassSections 3 = Some flags
       /\ range flags = (10, 12)
       /\ map range (Children flags)
          = [(11, 12); (11, 12); (11, 12); (11, 12);
             (10, 11); (10, 11); (10, 11); (10, 11); (10, 11); (10, 11)].
Proof.
  split; [vm_compute; reflexivity|].
  eexists. split; [reflexivity|]. split; reflexivity.
Qed.

Lemma C4_witness :
  ordered emptyClassSections
  /\ exists s, In s emptyClassSections /\ flags_like s.
Proof.
  assert (H : parseClass noFloats noFloats emptyClassFile
              = Returned emptyClassSections) by (vm_compute; reflexivity).
  destruct (C4_ranges noFloats noFloats emptyClassFile emptyClassSections H)
    as (H1 & _ & H3).
  split; assumption.
Defined.

(** C5, the claim as stated fails: in depth-first visitation the ids are
    not increasing, and the version Section (id 3) comes after its children
    (ids 1 and 2); in [longFile] a pool entry (id 5) comes before its
    children (ids 6 and 7) while the pool Section itself (id 12) comes after
    everything below it. *)
Lemma C5_counterexample :
  parseClass noFloats noFloats emptyClassFile = Returned emptyClassSections
  /\ map Id (allSections emptyClassSections)
     = [0; 3; 1; 2; 5; 4; 16; 6; 7; 8; 9; 10; 11; 12; 13; 14; 15; 17; 18; 19]
  /\ parseClass noFloats noFloats longFile = Returned longFileSections
  /\ option_map (fun s => map Id (subsections s)) (nth_error longFileSections 2)
     = Some [12; 4; 5; 6; 7; 8; 9; 10; 11].
Proof.
  split; [vm_compute; reflexivity|]. split; [reflexivity|].
  split; [vm_compute; reflexivity|]. reflexivity.
Qed.

Lemma C5_witness :
  StronglySorted Z.lt (map Id (creation emptyClassSections))
  /\ hd_error (map Id (creation emptyClassSections)) = Some 0
  /\ NoDup (map Id (allSections emptyClassSections)).
Proof.
  assert (H : parseClass noFloats noFloats emptyClassFile
              = Returned emptyClassSections) by (vm_compute; reflexivity).
  destruct (C5_ids noFloats noFloats emptyClassFile emptyClassSections H)
    as (H1 & H2 & _ & H4 & _).
  repeat split; assumption.
Defined.

(** C7, the claim as stated fails: the pool of [longFile] has a long at
    index 1 (its provenance entries are labelled 1 and 3), and on the class
    [ParseClass] returns for it the lookup of index 2 is a panic. *)
Lemma C7_counterexample :
  option_map (fun s => map Name (Children s)) (nth_error longFileSections 2)
  = Some ["constant pool count: 4"%string; "[1] long"%string;
          "[3] UTF-8 string"%string]
  /\ exists c,
       ParseClass longFile = Returned (c, None)
       /\ getConstantPoolItemAt c 2 = Panicked (IndexOutOfRange 1 0)
       /\ getLongAt c 0 = Panicked (IndexOutOfRange 0 0).
Proof.
  split; [reflexivity|].
  eexists. split; [vm_compute; reflexivity|]. split; reflexivity.
Qed.

Lemma C7_witness :
  exists c,
    ParseClass longFile = Returned (c, None)
    /\ getConstantPoolItemAt c 2 = Panicked (IndexOutOfRange (uint16 (2 - 1)) 0).
Proof.
  destruct (ParseClass longFile) as [[c e]|p] eqn:E; [|discriminate E].
  assert (He : e = None) by (vm_compute in E; now inversion E).
  subst e. exists c. split; [reflexivity|].
  exact (proj2 (C7_wide_entries noFloats noFloats) longFile c None E 2).
Defined.

(* ================================================================== *)
(** * Further properties of the code *)

(* ------------------------------------------------------------------ *)
(** ** Values read by the cursor *)

Lemma bigEndian_app (a b : list byte) :
  forall acc, bigEndian acc (a ++ b) = bigEndian (bigEndian acc a) b.
Proof.
  induction a as [|x a IH]; intros acc; simpl; [reflexivity|apply IH].
Qed.

Lemma bigEndian_shift (bs : list byte) :
  forall acc, bigEndian acc bs = acc * 256 ^ len bs + bigEndian 0 bs.
Proof.
  induction bs as [|b bs IH]; intros acc.
  - simpl. lia.
  - cbn [bigEndian]. rewrite IH. rewrite (IH (0 * 256 + byte_val b)).
    unfold len. cbn [List.length]. rewrite Nat2Z.inj_succ, Z.pow_succ_r by lia.
    ring.
Qed.

Lemma bigEndian_bound (bs : list byte) :
  0 <= bigEndian 0 bs < 256 ^ len bs.
Proof.
  induction bs as [|b bs IH].
  - simpl. lia.
  - cbn [bigEndian]. rewrite bigEndian_shift.
    unfold len in *. cbn [List.length].
    rewrite Nat2Z.inj_succ, Z.pow_succ_r by lia.
    pose proof (byte_val_range b).
    assert (0 < 256 ^ Z.of_nat (List.length bs)) by (apply Z.pow_pos_nonneg; lia).
    nia.
Qed.

Lemma read_bound (n : nat) (r : byteParser) :
  0 <= fst (by_value (read_body n) r) < 256 ^ Z.of_nat n.
Proof.
  split; [apply read_nonneg|].
  assert (Hpos : 0 < 256 ^ Z.of_nat n) by (apply Z.pow_pos_nonneg; lia).
  unfold by_value, read_body, binaryRead, ReadFull.
  destruct (err r); simpl; [exact Hpos|].
  destruct (Nat.leb_spec n (List.length (reader r))) as [Hle|Hlt]; simpl;
    [|exact Hpos].
  pose proof (bigEndian_bound (firstn n (reader r))) as Hb.
  unfold len in Hb. rewrite length_firstn, Nat.min_l in Hb by exact Hle.
  apply Hb.
Qed.

(** X1: whatever the state of the cursor, a read gives a value of its
    width: [u1] below 2^8, [u2] below 2^16, [u4] below 2^32, [u8] below
    2^64, and never a negative one. *)
Theorem reads_fit_their_width (r : byteParser) :
  0 <= fst (u1 r) < 2 ^ 8 /\ 0 <= fst (u2 r) < 2 ^ 16
  /\ 0 <= fst (u4 r) < 2 ^ 32 /\ 0 <= fst (u8 r) < 2 ^ 64.
Proof.
  pose proof (read_bound 1 r). pose proof (read_bound 2 r).
  pose proof (read_bound 4 r). pose proof (read_bound 8 r).
  unfold u1, u2, u4, u8.
  change (256 ^ Z.of_nat 1) with (2 ^ 8) in *.
  change (256 ^ Z.of_nat 2) with (2 ^ 16) in *.
  change (256 ^ Z.of_nat 4) with (2 ^ 32) in *.
  change (256 ^ Z.of_nat 8) with (2 ^ 64) in *.
  repeat split; lia.
Qed.

Lemma int64_add_l (a b : Z) : int64 (int64 a + b) = int64 (a + b).
Proof.
  assert (E : (int64 a + b) mod 18446744073709551616
              = (a + b) mod 18446744073709551616).
  { unfold int64.
    destruct (a mod 18446744073709551616 <? 9223372036854775808).
    - now rewrite Zplus_mod_idemp_l.
    - replace (a mod 18446744073709551616 - 18446744073709551616 + b)
        with (a mod 18446744073709551616 + b + (-1) * 18446744073709551616)
        by ring.
      rewrite Z_mod_plus_full. now rewrite Zplus_mod_idemp_l. }
  unfold int64 at 1 3. now rewrite E.
Qed.

Lemma firstn_split_app {A} (n m : nat) (l : list A) :
  firstn (n + m) l = firstn n l ++ firstn m (skipn n l).
Proof.
  revert l. induction n as [|n IH]; intros l; [reflexivity|].
  destruct l as [|x l]; simpl.
  - now rewrite firstn_nil.
  - now rewrite IH.
Qed.

(** X2: with eight bytes left, [parseLongConstant], which reads the value
    as two [u4] halves, gives the signed reading of what one [u8] reads (the
    provenance pass reads the same entry with one [u8] and shows it
    unsigned), and leaves the cursor where [u8] leaves it. *)
Theorem parseLongConstant_is_u8 (cr : byteParser) :
  err cr = None -> (8 <= List.length (reader cr))%nat ->
  parseLongConstant cr
  = Returned (longConstant (int64 (fst (u8 cr))), snd (u8 cr)).
Proof.
  intros He Hlen. unfold parseLongConstant, bind, rd, ret, u4, u8.
  rewrite (read_enough 4 cr He) by lia.
  rewrite (read_enough 8 cr He) by lia.
  rewrite read_enough; cbn [err reader fst snd];
    [|reflexivity|rewrite length_skipn; lia].
  rewrite skipn_skipn. cbn [Nat.add].
  rewrite int64_add_l. do 3 f_equal.
  change 8%nat with (4 + 4)%nat. rewrite firstn_split_app, bigEndian_app.
  rewrite (bigEndian_shift (firstn 4 (skipn 4 (reader cr)))
             (bigEndian 0 (firstn 4 (reader cr)))).
  unfold len. rewrite length_firstn, length_skipn, Nat.min_l by lia.
  rewrite Z.shiftl_mul_pow2 by lia. reflexivity.
Qed.

Lemma parseLongConstant_is_u8_witness :
  parseLongConstant
    {| reader := [xff; xff; xff; xff; xff; xff; xff; xfe; x07]; err := None |}
  = Returned (longConstant (-2), {| reader := [x07]; err := None |}).
Proof.
  exact (parseLongConstant_is_u8
           {| reader := [xff; xff; xff; xff; xff; xff; xff; xfe; x07];
              err := None |}
           eq_refl (le_S _ _ (le_n 8))).
Defined.

(* ------------------------------------------------------------------ *)
(** ** Loops over the cursor *)

Lemma forN_length {S A} (n : nat) (body : St S A) :
  forall s l s', forN n body s = Returned (l, s') -> List.length l = n.
Proof.
  induction n as [|n IH]; intros s l s' H; cbn [forN] in H.
  - unfold ret in H. now inversion H.
  - bind_inv H. bind_inv H. unfold ret in H. inversion H; subst.
    simpl. f_equal. eapply IH. eassumption.
Qed.

Lemma forN_rd_returns (f : byteParser -> Z * byteParser) (n : nat) :
  forall cr, exists l cr', forN n (rd f) cr = Returned (l, cr').
Proof.
  induction n as [|n IH]; intros cr; cbn [forN].
  - do 2 eexists. reflexivity.
  - unfold bind, rd at 1. destruct (f cr) as [x cr1].
    destruct (IH cr1) as (l & cr' & ->). do 2 eexists. reflexivity.
Qed.

Lemma u1_cons (b : byte) (rest : list byte) :
  u1 {| reader := b :: rest; err := None |}
  = (byte_val b, {| reader := rest; err := None |}).
Proof. now apply u1_next. Qed.

Lemma u2_cons (a b : byte) (rest : list byte) :
  u2 {| reader := a :: b :: rest; err := None |}
  = (bigEndian 0 [a; b], {| reader := rest; err := None |}).
Proof.
  unfold u2. rewrite read_enough; [reflexivity|reflexivity|simpl; lia].
Qed.

Lemma u4_cons (a b c d : byte) (rest : list byte) :
  u4 {| reader := a :: b :: c :: d :: rest; err := None |}
  = (bigEndian 0 [a; b; c; d], {| reader := rest; err := None |}).
Proof.
  unfold u4. rewrite read_enough; [reflexivity|reflexivity|simpl; lia].
Qed.

Lemma forN_u1_text (text rest : list byte) :
  forN (List.length text) (rd u1) {| reader := text ++ rest; err := None |}
  = Returned (map byte_val text, {| reader := rest; err := None |}).
Proof.
  induction text as [|b text IH]; [reflexivity|].
  cbn [List.length forN app map]. unfold bind, rd at 1. rewrite u1_cons.
  now rewrite IH.
Qed.

Lemma readBytes_text (text rest : list byte) :
  readBytes (List.length text) {| reader := text ++ rest; err := None |}
  = (map byte_val text, {| reader := rest; err := None |}).
Proof.
  induction text as [|b text IH]; [reflexivity|].
  cbn [List.length readBytes app map]. rewrite u1_cons. now rewrite IH.
Qed.

Lemma ascii_of_byte_val (b : byte) :
  ascii_of_nat (Z.to_nat (byte_val b)) = ascii_of_byte b.
Proof.
  unfold byte_val. rewrite ascii_of_byte_via_nat, Byte.to_nat_via_N.
  f_equal. rewrite <- Z_N_nat. now rewrite N2Z.id.
Qed.

Lemma string_of_byte_values_text (text : list byte) :
  string_of_byte_values (map byte_val text) = string_of_list_byte text.
Proof.
  unfold string_of_byte_values, string_of_list_byte. rewrite map_map.
  f_equal. apply map_ext. intros b. apply ascii_of_byte_val.
Qed.

Lemma string_of_values_text (text : list byte) :
  string_of_values (map byte_val text) = string_of_list_byte text.
Proof. apply string_of_byte_values_text. Qed.

Lemma length_string_of_list_ascii (l : list ascii) :
  String.length (string_of_list_ascii l) = List.length l.
Proof.
  induction l as [|c l IH]; simpl; [reflexivity|now rewrite IH].
Qed.

(** X3: [parseUTF8String] always returns a text of exactly the declared
    length, also when the input ends early (the missing bytes read as zero);
    when the declared number of bytes is there, the text is those bytes and
    the cursor stands right after them. *)
Theorem parseUTF8String_length (cr : byteParser) :
  (exists s cr',
     parseUTF8String cr = Returned (utf8String s, cr')
     /\ String.length s = Z.to_nat (fst (u2 cr)))
  /\ (forall l1 l2 text rest,
        reader cr = l1 :: l2 :: text ++ rest -> err cr = None ->
        bigEndian 0 [l1; l2] = len text ->
        parseUTF8String cr
        = Returned (utf8String (string_of_list_byte text),
                    {| reader := rest; err := None |})).
Proof.
  split.
  - unfold parseUTF8String, bind, rd at 1. destruct (u2 cr) as [n cr1].
    cbn [fst].
    destruct (forN_rd_returns u1 (Z.to_nat n) cr1) as (l & cr' & E).
    rewrite E. unfold ret. do 2 eexists. split; [reflexivity|].
    unfold string_of_byte_values.
    rewrite length_string_of_list_ascii, length_map.
    eapply forN_length. exact E.
  - intros l1 l2 text rest Hr He Hl. destruct cr as [rd0 e0]. simpl in Hr, He.
    subst rd0 e0. unfold parseUTF8String, bind, rd at 1.
    rewrite u2_cons, Hl. unfold len. rewrite Nat2Z.id, forN_u1_text.
    unfold ret. now rewrite string_of_byte_values_text.
Qed.

(* ------------------------------------------------------------------ *)
(** ** What [ParseClass] reports *)

Lemma keeps_ret {A} (a : A) : keeps_err (ret a).
Proof. intros cr a' cr' H. unfold ret in H. now inversion H. Qed.

Lemma keeps_bind {A B} (m : St byteParser A) (k : A -> St byteParser B) :
  keeps_err m -> (forall a, keeps_err (k a)) -> keeps_err (bind m k).
Proof.
  intros Hm Hk cr b cr' H. bind_inv H.
  apply Hm in E. apply Hk in H. congruence.
Qed.

Lemma keeps_rd (n : nat) : keeps_err (rd (by_value (read_body n))).
Proof.
  intros cr a cr' H. unfold rd in H. inversion H.
  pose proof (read_err_unchanged n cr) as E.
  destruct (by_value (read_body n) cr). simpl in *. congruence.
Qed.

Lemma keeps_lift {A} (o : outcome A) : keeps_err (lift o).
Proof.
  intros cr a cr' H. unfold lift in H. destruct o; now inversion H.
Qed.

Lemma keeps_forN {A} (n : nat) (body : St byteParser A) :
  keeps_err body -> keeps_err (forN n body).
Proof.
  intros Hb. induction n as [|n IH]; cbn [forN].
  - apply keeps_ret.
  - apply keeps_bind; [exact Hb|]. intros a.
    apply keeps_bind; [exact IH|]. intros l. apply keeps_ret.
Qed.

Lemma keeps_times {A} (n : nat) (body : St byteParser A) :
  keeps_err body -> keeps_err (times n body).
Proof.
  intros Hb. induction n as [|n IH]; cbn [times].
  - apply keeps_ret.
  - apply keeps_bind; [exact Hb|]. intros a. exact IH.
Qed.

Create HintDb keeps.

Ltac keeps :=
  lazymatch goal with
  | |- keeps_err (bind _ _) => apply keeps_bind; [keeps | intro; keeps]
  | |- keeps_err (ret _) => apply keeps_ret
  | |- keeps_err (rd u1) => apply (keeps_rd 1)
  | |- keeps_err (rd u2) => apply (keeps_rd 2)
  | |- keeps_err (rd u4) => apply (keeps_rd 4)
  | |- keeps_err (rd u8) => apply (keeps_rd 8)
  | |- keeps_err (lift _) => apply keeps_lift
  | |- keeps_err (forN _ _) => apply keeps_forN; keeps
  | |- keeps_err (times _ _) => apply keeps_times; keeps
  | |- keeps_err (if ?b then _ else _) => destruct b; keeps
  | |- _ => auto with keeps
  end.

Lemma keeps_skipAttribute : keeps_err skipAttribute.
Proof. unfold skipAttribute. keeps. Qed.
#[local] Hint Resolve keeps_skipAttribute : keeps.

Lemma keeps_parseField : keeps_err parseField.
Proof. unfold parseField. keeps. Qed.
#[local] Hint Resolve keeps_parseField : keeps.

Lemma keeps_parseHandler (pool : list ConstantPoolItem) :
  keeps_err (parseHandler pool).
Proof. unfold parseHandler. keeps. Qed.
#[local] Hint Resolve keeps_parseHandler : keeps.

Lemma keeps_parseCode (pool : list ConstantPoolItem) (length : Z) :
  keeps_err (parseCode pool length).
Proof. unfold parseCode. keeps. Qed.
#[local] Hint Resolve keeps_parseCode : keeps.

Lemma keeps_methodAttributes (pool : list ConstantPoolItem) (n : nat) :
  forall code, keeps_err (methodAttributes pool n code).
Proof.
  induction n as [|n IH]; intros code; cbn [methodAttributes]; keeps.
Qed.
#[local] Hint Resolve keeps_methodAttributes : keeps.

Lemma keeps_parseMethod (pool : list ConstantPoolItem) :
  keeps_err (parseMethod pool).
Proof. unfold parseMethod. keeps. Qed.
#[local] Hint Resolve keeps_parseMethod : keeps.

Lemma keeps_ParseClass_body : keeps_err ParseClass_body.
Proof. unfold ParseClass_body. cbv zeta. keeps. Qed.

Lemma starts_with_magic (r : list byte) :
  firstn 4 r = magicBytes -> exists rest, r = magicBytes ++ rest.
Proof.
  destruct r as [|a [|b [|c [|d rest]]]]; try discriminate.
  simpl. intros H. inversion H; subst. now exists rest.
Qed.

Lemma newClassDecoder_magic (rest : list byte) :
  newClassDecoder (magicBytes ++ rest) = {| reader := rest; err := None |}.
Proof.
  unfold newClassDecoder, magicBytes. cbn [app]. rewrite u4_cons. reflexivity.
Qed.

(** X4: the error [ParseClass] returns tells one thing only, whether the
    input starts with the magic number.  On an input that does, the error is
    [nil] whenever [ParseClass] returns, however short or malformed the rest
    is: no read failure ever reaches the caller. *)
Theorem ParseClass_reports_only_bad_magic (r : list byte) (c : Class)
  (e : option error) :
  ParseClass r = Returned (c, e) ->
  (firstn 4 r = magicBytes -> e = None)
  /\ (firstn 4 r <> magicBytes -> e = Some BadMagicNumber).
Proof.
  unfold ParseClass. intros H.
  destruct (ParseClass_body (newClassDecoder r)) as [[c' cr]|p] eqn:Hb;
    [|discriminate H].
  inversion H; subst c' e; clear H.
  apply keeps_ParseClass_body in Hb. rewrite Hb. split.
  - intros Hm. destruct (starts_with_magic r Hm) as [rest ->].
    now rewrite newClassDecoder_magic.
  - intros Hm. destruct (newClassDecoder_bad_magic r Hm) as [rest ->].
    reflexivity.
Qed.

Lemma ParseClass_reports_only_bad_magic_witness :
  exists c e,
    ParseClass [xca; xfe; xba; xbe; x00; x03] = Returned (c, e) /\ e = None.
Proof.
  destruct (ParseClass [xca; xfe; xba; xbe; x00; x03]) as [[c e]|p] eqn:H;
    [|discriminate H].
  exists c, e. split; [reflexivity|].
  exact (proj1 (ParseClass_reports_only_bad_magic _ c e H) eq_refl).
Defined.

Lemma only_ret {A} (P : panic -> Prop) (a : A) : panics_only P (ret a).
Proof. intros cr p H. discriminate H. Qed.

Lemma only_bind {A B} (P : panic -> Prop) (m : St byteParser A)
  (k : A -> St byteParser B) :
  panics_only P m -> (forall a, panics_only P (k a)) -> panics_only P (bind m k).
Proof.
  intros Hm Hk cr p H. unfold bind in H.
  destruct (m cr) as [[a cr1]|q] eqn:E.
  - now apply Hk in H.
  - inversion H; subst. now apply Hm in E.
Qed.

Lemma only_rd (P : panic -> Prop) (f : byteParser -> Z * byteParser) :
  panics_only P (rd f).
Proof. intros cr p H. discriminate H. Qed.

Lemma only_forN {A} (P : panic -> Prop) (n : nat) (body : St byteParser A) :
  panics_only P body -> panics_only P (forN n body).
Proof.
  intros Hb. induction n as [|n IH]; cbn [forN].
  - apply only_ret.
  - apply only_bind; [exact Hb|]. intros a.
    apply only_bind; [exact IH|]. intros l. apply only_ret.
Qed.

Lemma only_times {A} (P : panic -> Prop) (n : nat) (body : St byteParser A) :
  panics_only P body -> panics_only P (times n body).
Proof.
  intros Hb. induction n as [|n IH]; cbn [times].
  - apply only_ret.
  - apply only_bind; [exact Hb|]. intros a. exact IH.
Qed.

Ltac only_panics :=
  lazymatch goal with
  | |- panics_only _ (bind _ _) =>
      apply only_bind; [only_panics | intro; only_panics]
  | |- panics_only _ (ret _) => apply only_ret
  | |- panics_only _ (rd _) => apply only_rd
  | |- panics_only _ (forN _ _) => apply only_forN; only_panics
  | |- panics_only _ (times _ _) => apply only_times; only_panics
  | |- _ => auto with keeps
  end.

Lemma only_skipAttribute (P : panic -> Prop) : panics_only P skipAttribute.
Proof. unfold skipAttribute. only_panics. Qed.
#[local] Hint Resolve only_skipAttribute : keeps.

Lemma only_parseField (P : panic -> Prop) : panics_only P parseField.
Proof. unfold parseField. only_panics. Qed.
#[local] Hint Resolve only_parseField : keeps.

Lemma parseMethod_nil_panic (cr : byteParser) :
  parseMethod [] cr
  = Panicked (IndexOutOfRange (uint16 (descriptorIndexAt cr - 1)) 0).
Proof.
  unfold descriptorIndexAt, parseMethod, bind, rd, lift.
  destruct (u2 cr) as [a cr1]; simpl.
  destruct (u2 cr1) as [n cr2]; simpl.
  destruct (u2 cr2) as [d cr3]; simpl.
  now rewrite utf8At_nil.
Qed.

Lemma only_parseMethod_nil : panics_only empty_pool_lookup (parseMethod []).
Proof.
  intros cr p H. rewrite parseMethod_nil_panic in H. inversion H.
  eexists. reflexivity.
Qed.
#[local] Hint Resolve only_parseMethod_nil : keeps.

(** X5: [ParseClass] has one way to panic, the lookup in its empty
    constant pool made for the first method; no other statement of it can
    panic, whatever the input. *)
Theorem ParseClass_only_panic (r : list byte) (p : panic) :
  ParseClass r = Panicked p -> exists i, p = IndexOutOfRange i 0.
Proof.
  unfold ParseClass. intros H.
  destruct (ParseClass_body (newClassDecoder r)) as [[c cr]|q] eqn:Hb;
    [discriminate H|].
  inversion H; subst q; clear H. revert Hb.
  generalize (newClassDecoder r). intros cr Hb.
  assert (Ho : panics_only empty_pool_lookup ParseClass_body).
  { unfold ParseClass_body. cbv zeta.
    change (ConstantPoolItems zeroClass) with (@nil ConstantPoolItem).
    only_panics. }
  exact (Ho cr p Hb).
Qed.

Lemma ParseClass_only_panic_witness :
  ParseClass oneMethodFile = Panicked (IndexOutOfRange 5 0)
  /\ exists i, IndexOutOfRange 5 0 = IndexOutOfRange i 0.
Proof.
  split; [reflexivity|].
  exact (ParseClass_only_panic oneMethodFile (IndexOutOfRange 5 0) eq_refl).
Defined.

Lemma bind_rd {A} (f : byteParser -> Z * byteParser)
  (k : Z -> St byteParser A) (cr : byteParser) :
  bind (rd f) k cr = k (fst (f cr)) (snd (f cr)).
Proof. unfold bind, rd. now destruct (f cr). Qed.

Ltac read_u2 :=
  rewrite bind_rd, u2_cons; cbv beta; cbn [fst snd].

Ltac read_u2_in H :=
  rewrite bind_rd, u2_cons in H; cbv beta in H; cbn [fst snd] in H.

(** X6: [ParseClass] does not step over the constant pool.  The value of
    the pool count has no effect on what it returns, and the access flags,
    the this-class and super-class indices and the interface count are
    always the two-byte values at offsets 10, 12, 14 and 16 of the input,
    that is, the first bytes of the pool when there is one. *)
Theorem ParseClass_ignores_pool_count (m1 m2 M1 M2 c1 c2 : byte)
  (tail : list byte) :
  (forall c1' c2',
     ParseClass (magicBytes ++ [m1; m2; M1; M2; c1; c2] ++ tail)
     = ParseClass (magicBytes ++ [m1; m2; M1; M2; c1'; c2'] ++ tail))
  /\ (forall f1 f2 t1 t2 s1 s2 n1 n2 rest c e,
        tail = [f1; f2; t1; t2; s1; s2; n1; n2] ++ rest ->
        ParseClass (magicBytes ++ [m1; m2; M1; M2; c1; c2] ++ tail)
        = Returned (c, e) ->
        MinorVersion c = bigEndian 0 [m1; m2]
        /\ MajorVersion c = bigEndian 0 [M1; M2]
        /\ AccessFlags c = bigEndian 0 [f1; f2]
        /\ thisClass c = bigEndian 0 [t1; t2]
        /\ superClass c = bigEndian 0 [s1; s2]
        /\ len (interfaces c) = bigEndian 0 [n1; n2]).
Proof.
  split.
  - intros c1' c2'. unfold ParseClass. rewrite !newClassDecoder_magic.
    unfold ParseClass_body. cbv zeta. cbn [app].
    do 3 read_u2. symmetry. do 3 read_u2. reflexivity.
  - intros f1 f2 t1 t2 s1 s2 n1 n2 rest c e -> H.
    unfold ParseClass in H. rewrite newClassDecoder_magic in H.
    unfold ParseClass_body in H. cbv zeta in H. cbn [app] in H.
    do 7 (read_u2_in H).
    lazymatch type of H with
    | context [bind ?m ?k ?s] =>
        destruct (bind m k s) as [[c' cr]|p] eqn:Hb
    end; [|discriminate H].
    inversion H; subst c' e; clear H.
    do 7 (bind_inv Hb). unfold ret in Hb. inversion Hb; subst; clear Hb.
    cbn [MinorVersion MajorVersion AccessFlags thisClass superClass interfaces].
    do 5 (split; [reflexivity|]).
    match goal with
    | Hi : forN _ (rd u2) _ = Returned _ |- _ =>
        apply forN_length in Hi; unfold len; rewrite Hi
    end.
    apply Z2Nat.id. apply bigEndian_nonneg. lia.
Qed.

Lemma ParseClass_ignores_pool_count_witness :
  ParseClass (magicBytes ++ [x00; x00; x00; x34; x00; x04]
              ++ [x05; x00; x00; x00; x00; x00; x00; x00; x00])
  = ParseClass (magicBytes ++ [x00; x00; x00; x34; x00; x01]
                ++ [x05; x00; x00; x00; x00; x00; x00; x00; x00]).
Proof.
  exact (proj1 (ParseClass_ignores_pool_count x00 x00 x00 x34 x00 x04
                  [x05; x00; x00; x00; x00; x00; x00; x00; x00])
           x00 x01).
Defined.

(* ------------------------------------------------------------------ *)
(** ** Descriptors, further *)

Lemma sig_step (sig rest : string) (c : ascii) (s : list string) :
  recognised c = true ->
  parseSigniture_from sig (String c rest) s false
  = parseSigniture_from sig rest (s ++ markerOf c) (is_char c "L").
Proof.
  unfold recognised, markerOf. simpl. intros H.
  case_char c; now rewrite app_nil_r.
Qed.

(** A scan that returns does so whatever descriptor the panic message
    would have quoted, and carries on into what follows. *)
Lemma sig_scan_app (s1 : string) :
  forall sigA sigB s2 acc className l,
  parseSigniture_from sigA s1 acc className = Returned l ->
  parseSigniture_from sigB (s1 ++ s2) acc className
  = parseSigniture_from sigB s2 l (classNameAfter className s1).
Proof.
  induction s1 as [|c s1 IH]; intros sigA sigB s2 acc cn l H.
  - simpl in H. inversion H. reflexivity.
  - change (String c s1 ++ s2)%string with (String c (s1 ++ s2)).
    cbn [classNameAfter]. destruct cn.
    + rewrite sig_step_className in *. now apply IH with sigA.
    + destruct (recognised c) eqn:Hc.
      * rewrite sig_step in * by exact Hc. now apply IH with sigA.
      * rewrite sig_step_unrecognised in H by exact Hc. discriminate H.
Qed.

(** The markers found are appended to the ones already there. *)
Lemma sig_scan_acc (rest : string) :
  forall sig acc className l,
  parseSigniture_from sig rest [] className = Returned l ->
  parseSigniture_from sig rest acc className = Returned (acc ++ l).
Proof.
  assert (G : forall sig acc0 acc className l,
             parseSigniture_from sig rest acc0 className = Returned l ->
             parseSigniture_from sig rest (acc ++ acc0) className
             = Returned (acc ++ l)).
  { induction rest as [|c rest IH]; intros sig acc0 acc cn l H.
    - simpl in *. inversion H. reflexivity.
    - destruct cn.
      + rewrite sig_step_className in *. now apply IH.
      + destruct (recognised c) eqn:Hc.
        * rewrite sig_step in * by exact Hc. rewrite <- app_assoc.
          now apply IH.
        * rewrite sig_step_unrecognised in H by exact Hc. discriminate H. }
  intros sig acc cn l H. specialize (G sig [] acc cn l H).
  now rewrite app_nil_r in G.
Qed.

Lemma sig_scan_any_sig (rest : string) :
  forall sigA sigB acc className l,
  parseSigniture_from sigA rest acc className = Returned l ->
  parseSigniture_from sigB rest acc className = Returned l.
Proof.
  intros sigA sigB acc cn l H.
  pose proof (sig_scan_app rest sigA sigB EmptyString acc cn l H) as E.
  assert (Hr : (rest ++ EmptyString)%string = rest).
  { clear. induction rest as [|c rest IH]; simpl; [reflexivity|now rewrite IH]. }
  rewrite Hr in E. exact E.
Qed.

(** X7: descriptors compose.  When [s1] parses to [l1] and ends outside a
    class name, and [s2] parses to [l2], their concatenation parses to
    [l1 ++ l2]. *)
Theorem parseSigniture_app (s1 s2 : string) (l1 l2 : list string) :
  parseSigniture s1 = Returned l1 -> classNameAfter false s1 = false ->
  parseSigniture s2 = Returned l2 ->
  parseSigniture (s1 ++ s2) = Returned (l1 ++ l2).
Proof.
  unfold parseSigniture. intros H1 Hst H2.
  rewrite (sig_scan_app s1 s1 (s1 ++ s2) s2 [] false l1 H1), Hst.
  apply sig_scan_acc. now apply sig_scan_any_sig with s2.
Qed.

Lemma parseSigniture_app_witness :
  parseSigniture ("(I[J" ++ "Ljava/lang/String;)V")
  = Returned (["int"%string; "long"%string]
              ++ ["reference"%string; "void"%string]).
Proof.
  apply parseSigniture_app; reflexivity.
Defined.

Lemma sig_skip_name (name : string) :
  no_semicolon name ->
  forall sig rest acc,
  parseSigniture_from sig (name ++ rest) acc true
  = parseSigniture_from sig rest acc true.
Proof.
  unfold no_semicolon.
  induction name as [|c name IH]; intros Hn sig rest acc; [reflexivity|].
  change (String c name ++ rest)%string with (String c (name ++ rest)).
  cbn [list_ascii_of_string] in Hn. inversion Hn as [|? ? Hc Hn']; subst.
  rewrite sig_step_className, Hc. simpl negb. now apply IH.
Qed.

(** X8: what a descriptor loses.  A class name gives the single marker
    "reference" whatever stands between [L] and [;]; a class name that is
    never closed is accepted and swallows the rest of the descriptor; and an
    array marker [[] leaves no trace, an array type parses as its element
    type. *)
Theorem parseSigniture_drops_names (name rest : string) (l : list string) :
  no_semicolon name ->
  (parseSigniture rest = Returned l ->
   parseSigniture ("L" ++ name ++ ";" ++ rest) = Returned ("reference"%string :: l))
  /\ parseSigniture ("L" ++ name) = Returned ["reference"%string]
  /\ (parseSigniture rest = Returned l ->
      parseSigniture ("[" ++ rest) = Returned l).
Proof.
  intros Hn. unfold parseSigniture. split; [|split].
  - intros H.
    change ("L" ++ name ++ ";" ++ rest)%string
      with (String "L" (name ++ String ";" rest)).
    rewrite sig_step by reflexivity. cbn [app markerOf is_char Ascii.eqb].
    simpl markerOf. rewrite sig_skip_name by exact Hn.
    rewrite sig_step_className. simpl negb.
    apply (sig_scan_acc rest _ ["reference"%string] false l).
    now apply sig_scan_any_sig with rest.
  - change ("L" ++ name)%string with (String "L" name).
    rewrite sig_step by reflexivity. simpl markerOf. simpl app.
    assert (Hr : (name ++ EmptyString)%string = name).
    { clear. induction name as [|c name IH]; simpl; [reflexivity|now rewrite IH]. }
    rewrite <- Hr at 2. rewrite sig_skip_name by exact Hn. reflexivity.
  - intros H. change ("[" ++ rest)%string with (String "[" rest).
    rewrite sig_step by reflexivity. simpl markerOf. simpl app.
    now apply sig_scan_any_sig with rest.
Qed.

Lemma parseSigniture_drops_names_witness :
  parseSigniture ("L" ++ "java/lang/Object" ++ ";" ++ "[[I")
  = Returned ["reference"; "int"]%string
  /\ parseSigniture ("L" ++ "java/lang/Object") = Returned ["reference"%string].
Proof.
  assert (Hn : no_semicolon "java/lang/Object")
    by (unfold no_semicolon; simpl; repeat constructor).
  destruct (parseSigniture_drops_names "java/lang/Object" "[[I" ["int"%string] Hn)
    as (H1 & H2 & _).
  split; [now apply H1|exact H2].
Defined.

(* ------------------------------------------------------------------ *)
(** ** Lookups by name *)

Lemma hasMethodCalled_from_spec (pool : list ConstantPoolItem) (name : string)
  (ms : list Method) :
  (hasMethodCalled_from pool ms name = Returned true ->
   exists m, In m ms /\ utf8At pool (m_nameIndex m) = Returned name)
  /\ (hasMethodCalled_from pool ms name = Returned false <->
      Forall (method_named_otherwise pool name) ms)
  /\ (forall p, hasMethodCalled_from pool ms name = Panicked p ->
      exists m, In m ms /\ utf8At pool (m_nameIndex m) = Panicked p).
Proof.
  induction ms as [|m ms (IH1 & IH2 & IH3)]; cbn [hasMethodCalled_from].
  - repeat split; try discriminate; intros; constructor.
  - destruct (utf8At pool (m_nameIndex m)) as [n|q] eqn:E; cbn [obind].
    + destruct (String.eqb_spec n name) as [->|Hne].
      * split; [|split].
        -- intros _. exists m. split; [now left|exact E].
        -- split; [discriminate|]. intros H. inversion H as [|? ? Hm _]; subst.
           destruct Hm as (n' & Hn' & Hd). congruence.
        -- discriminate.
      * split; [|split].
        -- intros H. destruct (IH1 H) as (m' & Hin & Hm').
           exists m'. split; [now right|exact Hm'].
        -- rewrite IH2. split.
           ++ intros H. constructor; [now exists n|exact H].
           ++ intros H. now inversion H.
        -- intros p H. destruct (IH3 p H) as (m' & Hin & Hm').
           exists m'. split; [now right|exact Hm'].
    + split; [discriminate|]. split.
      * split; [discriminate|]. intros H. inversion H as [|? ? Hm _]; subst.
        destruct Hm as (n' & Hn' & _). congruence.
      * intros p H. inversion H; subst. exists m. split; [now left|exact E].
Qed.

(** X9: [hasMethodCalled] answers [true] only for a name some method
    resolves to, and [false] exactly when every method resolves to another
    name; a method whose name index does not resolve to a text makes it
    panic, unless a method before it has the name. *)
Theorem hasMethodCalled_sound (c : Class) (name : string) :
  (hasMethodCalled c name = Returned true ->
   exists m, In m (methods c)
             /\ utf8At (ConstantPoolItems c) (m_nameIndex m) = Returned name)
  /\ (hasMethodCalled c name = Returned false <->
      Forall (method_named_otherwise (ConstantPoolItems c) name) (methods c))
  /\ (forall p, hasMethodCalled c name = Panicked p ->
      exists m, In m (methods c)
                /\ utf8At (ConstantPoolItems c) (m_nameIndex m) = Panicked p).
Proof.
  apply hasMethodCalled_from_spec.
Qed.

Lemma getField_from_spec (pool : list ConstantPoolItem) (name : string)
  (fs : list field) :
  (forall f, getField_from pool fs name = Returned f ->
   In f fs /\ utf8At pool (f_nameIndex f) = Returned name)
  /\ (Forall (field_named_otherwise pool name) fs ->
      getField_from pool fs name
      = Panicked (ExplicitPanic
                    (cat ["Could not find field called "%string; name]))).
Proof.
  induction fs as [|f0 fs (IH1 & IH2)]; cbn [getField_from].
  - split; [discriminate|reflexivity].
  - destruct (utf8At pool (f_nameIndex f0)) as [n|q] eqn:E; cbn [obind].
    + destruct (String.eqb_spec n name) as [->|Hne].
      * split.
        -- intros f H. inversion H; subst. split; [now left|exact E].
        -- intros H. inversion H as [|? ? Hf _]; subst.
           destruct Hf as (n' & Hn' & Hd). congruence.
      * split.
        -- intros f H. destruct (IH1 f H). split; [now right|assumption].
        -- intros H. inversion H; subst. now apply IH2.
    + split; [discriminate|].
      intros H. inversion H as [|? ? Hf _]; subst.
      destruct Hf as (n' & Hn' & _). congruence.
Qed.

(** X10: [getField] returns only a field of the class whose name index
    resolves to the name asked for, and it has no "not found" result: when
    every field resolves to another name (or there is no field) it panics
    with "Could not find field called ...". *)
Theorem getField_sound (c : Class) (name : string) :
  (forall f, getField c name = Returned f ->
   In f (fields c)
   /\ utf8At (ConstantPoolItems c) (f_nameIndex f) = Returned name)
  /\ (Forall (field_named_otherwise (ConstantPoolItems c) name) (fields c) ->
      getField c name
      = Panicked (ExplicitPanic
                    (cat ["Could not find field called "%string; name]))).
Proof.
  apply getField_from_spec.
Qed.



(* ------------------------------------------------------------------ *)
(** ** Pool indices *)

Lemma index_at_Returned {A} (s : list A) (i : Z) (a : A) :
  index_at s i = Returned a <-> 0 <= i /\ nth_error s (Z.to_nat i) = Some a.
Proof.
  unfold index_at.
  destruct (Z.leb_spec 0 i) as [H0|H0]; cbn [andb].
  - destruct (Z.ltb_spec i (len s)) as [H1|H1].
    + destruct (nth_error s (Z.to_nat i)) as [x|] eqn:E.
      * split; [intros H; inversion H; auto|intros [_ H]; now inversion H].
      * split; [discriminate|intros [_ H]; discriminate H].
    + split; [discriminate|]. intros [_ H].
      assert (Hlt : (Z.to_nat i < List.length s)%nat)
        by (apply nth_error_Some; congruence).
      unfold len in H1. lia.
  - split; [discriminate|]. intros [H _]. lia.
Qed.

Lemma index_at_out {A} (s : list A) (i : Z) :
  len s <= i -> index_at s i = Panicked (IndexOutOfRange i (len s)).
Proof.
  intros H. unfold index_at.
  destruct (Z.ltb_spec i (len s)) as [H1|H1]; [lia|].
  now rewrite andb_false_r.
Qed.

(** X12: how the pool is indexed.  Index 0 asks for element 65535 (the
    subtraction wraps at 16 bits), so on a pool of fewer than 65536 entries
    [getConstantPoolItemAt] panics on it; an index from 1 to 65535 gives
    entry number [index - 1] of the list, or panics past its end; and
    [getLongAt] takes the position in the list itself, one less than the
    index [getConstantPoolItemAt] takes for the same entry. *)
Theorem pool_index_conventions (c : Class) :
  (len (ConstantPoolItems c) < 65536 ->
   getConstantPoolItemAt c 0
   = Panicked (IndexOutOfRange 65535 (len (ConstantPoolItems c))))
  /\ (forall index it, 1 <= index <= 65535 ->
        (getConstantPoolItemAt c index = Returned it <->
         nth_error (ConstantPoolItems c) (Z.to_nat (index - 1)) = Some it))
  /\ (forall index, 1 <= index <= 65535 ->
        len (ConstantPoolItems c) < index ->
        getConstantPoolItemAt c index
        = Panicked (IndexOutOfRange (index - 1) (len (ConstantPoolItems c))))
  /\ (forall index, 1 <= index <= 65535 ->
        getLongAt c (index - 1)
        = obind (getConstantPoolItemAt c index) as_longConstant).
Proof.
  unfold getConstantPoolItemAt, getLongAt, poolAt, uint16.
  split; [|split; [|split]].
  - intros H. change ((0 - 1) mod 65536) with 65535.
    apply index_at_out. lia.
  - intros index it Hi. rewrite Z.mod_small by lia.
    rewrite index_at_Returned. split; [tauto|]. intros H. split; [lia|exact H].
  - intros index Hi Hlen. rewrite Z.mod_small by lia. apply index_at_out. lia.
  - intros index Hi. now rewrite Z.mod_small by lia.
Qed.

(* ------------------------------------------------------------------ *)
(** ** The provenance pass, further *)

Lemma parseClass_only_panic_witness :
  parseClass noFloats noFloats [xca; xfe; xba; xbe]
  = Panicked (SliceBoundsOutOfRange 8 4)
  /\ exists low,
       SliceBoundsOutOfRange 8 4
       = SliceBoundsOutOfRange low (len [xca; xfe; xba; xbe])
       /\ len [xca; xfe; xba; xbe] < low.
Proof.
  split; [reflexivity|].
  exact (parseClass_only_panic noFloats noFloats [xca; xfe; xba; xbe]
           (SliceBoundsOutOfRange 8 4) eq_refl).
Defined.

Lemma slice_from_Returned {A} (s rest : list A) (start : Z) :
  slice_from s start = Returned rest -> 0 <= start <= len s.
Proof.
  unfold slice_from.
  destruct (Z.leb_spec 0 start); destruct (Z.leb_spec start (len s)); simpl;
    intros Hs; inversion Hs; lia.
Qed.

Section FurtherProvenance.

Variable fmt_float32 : Z -> string.
Variable fmt_float64 : Z -> string.

Ltac in_buffer H :=
  match type of H with
  | context [slice_from ?b ?i] =>
      let E := fresh "E" in
      destruct (slice_from b i) eqn:E; [|discriminate H];
      now apply slice_from_Returned in E
  end.

Lemma parseMagicNumber_in_buffer : func_in_buffer parseMagicNumber.
Proof.
  intros bytes index g next s g' H.
  cbv [parseMagicNumber bind lift nextId ret leaf obind newByteParser] in H.
  destruct (4 <=? len bytes); [|discriminate H]. in_buffer H.
Qed.

Lemma parseVersion_in_buffer : func_in_buffer parseVersion.
Proof.
  intros bytes index g next s g' H.
  cbv [parseVersion bind lift nextId ret leaf obind newByteParser] in H.
  destruct (4 <=? len bytes); [|discriminate H]. in_buffer H.
Qed.

Lemma parseConstantPool_in_buffer :
  func_in_buffer (parseConstantPool fmt_float32 fmt_float64).
Proof.
  intros bytes index g next s g' H.
  cbv [parseConstantPool bind lift nextId ret leaf obind newByteParser] in H.
  in_buffer H.
Qed.

Lemma parseAccessFlags_in_buffer : func_in_buffer parseAccessFlags.
Proof.
  intros bytes index g next s g' H.
  cbv [parseAccessFlags bind lift nextId ret leaf obind newByteParser] in H.
  in_buffer H.
Qed.

Lemma parseThisClass_in_buffer : func_in_buffer parseThisClass.
Proof.
  intros bytes index g next s g' H.
  cbv [parseThisClass bind lift nextId ret leaf obind newByteParser] in H.
  in_buffer H.
Qed.

Lemma parseSuperClass_in_buffer : func_in_buffer parseSuperClass.
Proof.
  intros bytes index g next s g' H.
  cbv [parseSuperClass bind lift nextId ret leaf obind newByteParser] in H.
  in_buffer H.
Qed.

Lemma parseInterfaces_in_buffer : func_in_buffer parseInterfaces.
Proof.
  intros bytes index g next s g' H.
  cbv [parseInterfaces bind lift nextId ret leaf obind newByteParser] in H.
  in_buffer H.
Qed.

Lemma parsingFuncs_in_buffer :
  Forall func_in_buffer (parsingFuncs fmt_float32 fmt_float64).
Proof.
  unfold parsingFuncs. repeat first [apply Forall_cons | apply Forall_nil].
  - apply parseMagicNumber_in_buffer.
  - apply parseVersion_in_buffer.
  - apply parseConstantPool_in_buffer.
  - apply parseAccessFlags_in_buffer.
  - apply parseThisClass_in_buffer.
  - apply parseSuperClass_in_buffer.
  - apply parseInterfaces_in_buffer.
Qed.

Lemma runFuncs_in_buffer (fs : list parsingFunc) :
  Forall func_ok fs -> Forall func_in_buffer fs ->
  forall bytes index sections g out g',
  runFuncs fs bytes index sections g = Returned (out, g') ->
  Forall (fun s => 0 <= StartIndex s <= len bytes) sections ->
  Forall (fun s => 0 <= StartIndex s <= len bytes) out.
Proof.
  induction fs as [|f fs IH];
    intros Hok Hin bytes index sections g out g' H Hs; cbn [runFuncs] in H.
  - unfold ret in H. inversion H; subst. exact Hs.
  - inversion Hok as [|? ? Hf Hok']; subst.
    inversion Hin as [|? ? Hfb Hin']; subst.
    bind_inv H. destruct v as [next [s|]].
    + apply IH in H; try assumption.
      apply Forall_app. split; [exact Hs|]. constructor; [|constructor].
      pose proof (Hfb _ _ _ _ _ _ E) as Hb. apply Hf in E.
      destruct E as (Hstart & _). rewrite Hstart. exact Hb.
    + now apply IH in H.
Qed.

(** X14: every top-level Section of a decode that returns starts at an
    offset inside the buffer (at its end at the latest).  Nothing of the
    kind holds for where a Section ends. *)
Theorem sections_start_in_buffer (bytes : list byte) (sections : list Section) :
  parseClass fmt_float32 fmt_float64 bytes = Returned sections ->
  Forall (fun s => 0 <= StartIndex s <= len bytes) sections.
Proof.
  unfold parseClass. intros H.
  destruct (runFuncs _ bytes 0 [] 0) as [[out g']|q] eqn:E; [|discriminate H].
  inversion H; subst out.
  apply runFuncs_in_buffer in E; try exact E.
  - apply parsingFuncs_ok.
  - apply parsingFuncs_in_buffer.
  - constructor.
Qed.

End FurtherProvenance.

Lemma sections_start_in_buffer_witness :
  Forall (fun s => 0 <= StartIndex s <= len emptyClassFile) emptyClassSections.
Proof.
  apply (sections_start_in_buffer noFloats noFloats emptyClassFile).
  vm_compute. reflexivity.
Defined.

Section PoolEntries.

Variable fmt_float32 : Z -> string.
Variable fmt_float64 : Z -> string.

Lemma cpEntry_break (i next : Z) (parser : byteParser) (g : Z) :
  ~ In (fst (u1 parser)) knownTags ->
  cpEntry fmt_float32 fmt_float64 i next parser g
  = Returned (BreakLoop (next + 1), g + 2).
Proof.
  intros H. cbv [cpEntry bind nextId ret leaf].
  destruct (u1 parser) as [tag p1]. cbn [fst] in H.
  repeat match goal with
    | |- context [match ?x with _ => _ end] => is_var x; destruct x
    end;
    first [ replace (g + 1 + 1) with (g + 2) by lia; reflexivity
          | exfalso; apply H; cbv [In knownTags]; lia ].
Qed.

(** X15: a tag without a [case] (zero included, which is what a buffer at
    its end reads as) ends the loop at once.  The entries made so far are
    kept, the byte of the tag is counted in the range of the pool, and two
    ids are used up for the entry that is not made. *)
Theorem unknown_tag_stops_pool (slots : nat) (i next : Z) (parser : byteParser)
  (children : list Section) (g : Z) :
  ~ In (fst (u1 parser)) knownTags ->
  cpLoop fmt_float32 fmt_float64 (S slots) i next parser children g
  = Returned ((next + 1, children), g + 2).
Proof.
  intros H. cbn [cpLoop]. unfold bind at 1.
  now rewrite (cpEntry_break i next parser g H).
Qed.


End PoolEntries.

Lemma unknown_tag_stops_pool_witness :
  cpLoop noFloats noFloats 3 0 10 {| reader := []; err := None |} [] 4
  = Returned ((11, []), 6).
Proof.
  apply (unknown_tag_stops_pool noFloats noFloats 2 0 10
           {| reader := []; err := None |} [] 4).
  cbv [In knownTags u1 by_value read_body binaryRead ReadFull fst err reader
       List.length Nat.leb]. lia.
Defined.


(* ------------------------------------------------------------------ *)
(** ** The interface list *)


Lemma consecutive_app (l1 l2 : list Z) :
  forall g,
  consecutive g l1 -> consecutive (g + len l1) l2 -> consecutive g (l1 ++ l2).
Proof.
  induction l1 as [|x l1 IH]; cbn [consecutive app]; intros g H1 H2.
  - unfold len in H2. simpl in H2. now rewrite Z.add_0_r in H2.
  - destruct H1 as (Hx & H1). split; [exact Hx|]. apply IH; [exact H1|].
    unfold len in *. cbn [List.length] in H2. rewrite Nat2Z.inj_succ in H2.
    replace (g + 1 + Z.of_nat (List.length l1))
      with (g + Z.succ (Z.of_nat (List.length l1))) by lia.
    exact H2.
Qed.

Lemma interfacesLoop_exact (n : nat) :
  forall next parser children g,
  exists more,
    interfacesLoop n next parser children g
    = Returned ((next + 2 * Z.of_nat n, children ++ more), g + Z.of_nat n)
    /\ List.length more = n
    /\ tiles next more (next + 2 * Z.of_nat n)
    /\ Forall two_byte_leaf more
    /\ consecutive g (map Id more).
Proof.
  induction n as [|n IH]; intros next parser children g.
  - exists []. cbn [interfacesLoop]. unfold ret.
    rewrite app_nil_r, Z.mul_0_r, !Z.add_0_r.
    repeat split; constructor.
  - cbn [interfacesLoop]. cbv [bind nextId]. destruct (u2 parser) as [x p].
    match goal with
    | |- context [interfacesLoop n ?nx p (children ++ [?c]) ?gg] =>
        destruct (IH nx p (children ++ [c]) gg)
          as (more & E & Hlen & Ht & Hl & Hc);
        exists (c :: more)
    end.
    rewrite E, <- app_assoc. cbn [app]. rewrite Nat2Z.inj_succ.
    replace (next + 2 + 2 * Z.of_nat n) with (next + 2 * Z.succ (Z.of_nat n))
      in * by lia.
    replace (g + 1 + Z.of_nat n) with (g + Z.succ (Z.of_nat n)) by lia.
    split; [reflexivity|]. split; [simpl; now rewrite Hlen|].
    split; [split; [reflexivity|exact Ht]|].
    split; [constructor; [split; reflexivity|exact Hl]|].
    split; [reflexivity|exact Hc].
Qed.

(** X17: the interface list.  Called at an offset inside the buffer,
    [parseInterfaces] always returns a Section.  It has as many children as
    the count says, whether or not the buffer holds that many indices (the
    missing ones read as zero): the Section covers the two bytes of the count
    and two bytes for every child, the children follow the count and one
    another without a gap, and they are numbered before the Section
    itself. *)
Theorem parseInterfaces_layout (bytes rest : list byte) (index g : Z) :
  slice_from bytes index = Returned rest ->
  exists s,
    parseInterfaces bytes index g
    = Returned ((index + 2 + 2 * countAt rest, Some s), g + countAt rest + 1)
    /\ range s = (index, index + 2 + 2 * countAt rest)
    /\ len (Children s) = countAt rest
    /\ tiles (index + 2) (Children s) (index + 2 + 2 * countAt rest)
    /\ Forall two_byte_leaf (Children s)
    /\ consecutive g (map Id (Children s ++ [s])).
Proof.
  intros Hs. unfold countAt.
  pose proof (read_bound 2 {| reader := rest; err := None |}) as Hb.
  cbv [parseInterfaces bind lift nextId ret obind newByteParser].
  rewrite Hs. fold u2 in Hb. destruct (u2 _) as [count p]. cbn [fst] in *.
  destruct (interfacesLoop_exact (Z.to_nat count) (index + 2) p [] g)
    as (more & E & Hlen & Ht & Hl & Hc).
  rewrite Z2Nat.id in E, Ht by lia. rewrite E. cbn [app].
  eexists. split; [reflexivity|].
  unfold range, len. cbn [StartIndex EndIndex Children Id].
  split; [reflexivity|]. split; [rewrite Hlen; lia|].
  split; [exact Ht|]. split; [exact Hl|].
  rewrite map_app. apply consecutive_app; [exact Hc|].
  unfold len. rewrite length_map, Hlen, Z2Nat.id by lia.
  simpl. split; [reflexivity|exact I].
Qed.

Lemma parseInterfaces_layout_witness :
  exists s,
    parseInterfaces [x00; x21; x00; x03; x00; x05] 2 7
    = Returned ((10, Some s), 11)
    /\ range s = (2, 10)
    /\ len (Children s) = 3
    /\ tiles 4 (Children s) 10
    /\ Forall two_byte_leaf (Children s)
    /\ consecutive 7 (map Id (Children s ++ [s])).
Proof.
  exact (parseInterfaces_layout [x00; x21; x00; x03; x00; x05]
           [x00; x03; x00; x05] 2 7 eq_refl).
Defined.

(* ------------------------------------------------------------------ *)
(** ** The layout of the constant pool *)

Section PoolLayout.

Variable fmt_float32 : Z -> string.
Variable fmt_float64 : Z -> string.

Lemma cpLoop_tiles (slots : nat) :
  forall i next parser children g next' children' g',
  cpLoop fmt_float32 fmt_float64 slots i next parser children g
  = Returned ((next', children'), g') ->
  exists more hi,
    children' = children ++ more
    /\ (List.length more <= slots)%nat
    /\ tiles next more hi
    /\ (next' = hi \/ next' = hi + 1).
Proof.
  induction slots as [slots IH] using (well_founded_induction lt_wf).
  intros i next parser children g next' children' g' H.
  destruct slots as [|slots']; cbn [cpLoop] in H.
  - unfold ret in H. inversion H; subst. exists [], next'.
    rewrite app_nil_r. repeat split; [simpl; lia|now left].
  - bind_inv H. apply cpEntry_spec in E.
    destruct v as [item n1 p1 wide | n1].
    + destruct E as (Hs & He & _).
      assert (Hrec : exists more hi,
                 children' = (children ++ [item]) ++ more
                 /\ (List.length more <= slots')%nat
                 /\ tiles n1 more hi /\ (next' = hi \/ next' = hi + 1)).
      { destruct wide.
        - apply IH in H; [|lia].
          destruct H as (more & hi & -> & Hlen & Ht & Hn).
          exists more, hi. repeat split; try assumption. lia.
        - apply IH in H; [|lia]. exact H. }
      destruct Hrec as (more & hi & -> & Hlen & Ht & Hn).
      exists (item :: more), hi. rewrite <- app_assoc.
      split; [reflexivity|]. split; [simpl; lia|].
      split; [|exact Hn]. cbn [tiles]. rewrite He. split; [exact Hs|exact Ht].
    + destruct E as (-> & _). unfold ret in H. inversion H; subst.
      exists [], next. rewrite app_nil_r.
      repeat split; [simpl; lia|now right].
Qed.

(** X18: the layout of the constant pool Section.  Its first child is the
    two bytes of the count; the entries follow it and one another without a
    gap; there are at most [uint16 (count - 1)] of them (65535 for a count
    of zero); the Section ends where the last entry ends, or one byte later
    when the loop stopped at a tag it does not know; and its label counts
    the entries that were made, not the count that was read. *)
Theorem pool_layout (bytes : list byte) (index g next : Z) (s : Section)
  (g' : Z) :
  parseConstantPool fmt_float32 fmt_float64 bytes index g
  = Returned ((next, Some s), g') ->
  exists rest countSec entries hi,
    slice_from bytes index = Returned rest
    /\ Children s = countSec :: entries
    /\ range countSec = (index, index + 2)
    /\ Children countSec = [] /\ Id countSec = g
    /\ (List.length entries <= Z.to_nat (uint16 (countAt rest - 1)))%nat
    /\ tiles (index + 2) entries hi
    /\ range s = (index, next)
    /\ (next = hi \/ next = hi + 1)
    /\ Name s = cat ["constant pool with "%string; fmt_d (len entries);
                     " items"%string].
Proof.
  intros H. unfold countAt.
  cbv [parseConstantPool bind lift nextId ret leaf obind newByteParser] in H.
  destruct (slice_from bytes index) as [rest|]; [|discriminate H].
  destruct (u2 _) as [count p] eqn:Eu.
  match type of H with
  | context [cpLoop _ _ ?n ?i ?nx ?ps ?ch ?gg] =>
      destruct (cpLoop fmt_float32 fmt_float64 n i nx ps ch gg)
        as [[[n1 ch1] g1]|] eqn:E; [|discriminate H]
  end.
  inversion H; subst; clear H.
  apply cpLoop_tiles in E. destruct E as (more & hi & -> & Hlen & Ht & Hn).
  do 4 eexists. split; [reflexivity|]. cbn [Children app].
  split; [reflexivity|]. unfold range. cbn [StartIndex EndIndex Children Id Name].
  split; [reflexivity|]. split; [reflexivity|]. split; [reflexivity|].
  split; [rewrite Eu; exact Hlen|]. split; [exact Ht|]. split; [reflexivity|].
  split; [exact Hn|].
  replace (len (mkSection index (index + 2)
                  (cat ["constant pool count: "%string; fmt_d count]) [] g
                :: more) - 1) with (len more); [reflexivity|].
  unfold len. cbn [List.length]. lia.
Qed.

End PoolLayout.

Lemma pool_layout_witness :
  exists rest countSec entries hi,
    slice_from zeroCountPool 0 = Returned rest
    /\ Children zeroCountPoolSection = countSec :: entries
    /\ range countSec = (0, 0 + 2)
    /\ Children countSec = [] /\ Id countSec = 0
    /\ (List.length entries <= Z.to_nat (uint16 (countAt rest - 1)))%nat
    /\ tiles (0 + 2) entries hi
    /\ range zeroCountPoolSection = (0, 6)
    /\ (6 = hi \/ 6 = hi + 1)
    /\ Name zeroCountPoolSection
       = cat ["constant pool with "%string; fmt_d (len entries);
              " items"%string].
Proof.
  exact (pool_layout noFloats noFloats zeroCountPool 0 0 6
           zeroCountPoolSection 7 eq_refl).
Defined.

(* ------------------------------------------------------------------ *)
(** ** One text, two passes *)

Lemma forN_u1_readBytes (n : nat) :
  forall cr, forN n (rd u1) cr = Returned (readBytes n cr).
Proof.
  induction n as [|n IH]; intros cr; cbn [forN readBytes]; [reflexivity|].
  unfold bind, rd at 1. destruct (u1 cr) as [x cr1]. rewrite IH.
  now destruct (readBytes n cr1).
Qed.

Lemma readBytes_length (n : nat) :
  forall cr, List.length (fst (readBytes n cr)) = n.
Proof.
  induction n as [|n IH]; intros cr; cbn [readBytes]; [reflexivity|].
  destruct (u1 cr) as [x cr1]. specialize (IH cr1).
  destruct (readBytes n cr1). simpl in *. now rewrite IH.
Qed.

(** X19: the two passes read a UTF-8 entry alike.  From the cursor after
    the tag byte 1, whatever its state, [parseUTF8String] of the model pass
    and the entry of the provenance pass get the same text and leave the
    cursor at the same place; the entry shows the tag, the length and the
    text in quotes, over one, two and as many bytes as the text has. *)
Theorem utf8_passes_agree (fmt_float32 fmt_float64 : Z -> string)
  (i next : Z) (parser : byteParser) (g : Z) :
  fst (u1 parser) = 1 ->
  exists s item parser',
    parseUTF8String (snd (u1 parser)) = Returned (utf8String s, parser')
    /\ cpEntry fmt_float32 fmt_float64 i next parser g
       = Returned (Entry item (next + 3 + strlen s) parser' false, g + 4)
    /\ map Name (Children item)
       = ["tag: 1"%string;
          cat ["length: "%string; fmt_d (strlen s)];
          cat ["string: "%string; dquote; s; dquote]]
    /\ map range (Children item)
       = [(next, next + 1); (next + 1, next + 3);
          (next + 3, next + 3 + strlen s)].
Proof.
  intros Htag.
  cbv [cpEntry parseUTF8String bind nextId ret leaf].
  destruct (u1 parser) as [tag p1]. cbn [fst snd] in *. subst tag.
  unfold rd at 1.
  pose proof (read_bound 2 p1) as Hb. fold u2 in Hb.
  destruct (u2 p1) as [n p2]. cbn [fst] in Hb.
  rewrite forN_u1_readBytes.
  pose proof (readBytes_length (Z.to_nat n) p2) as Hl.
  destruct (readBytes (Z.to_nat n) p2) as [l p3]. cbn [fst] in Hl.
  assert (Hs : strlen (string_of_values l) = n).
  { unfold strlen, string_of_values.
    rewrite length_string_of_list_ascii, length_map, Hl. lia. }
  exists (string_of_values l). do 2 eexists.
  split; [reflexivity|]. rewrite Hs.
  replace (next + 1 + 2 + n) with (next + 3 + n) by lia.
  replace (next + 1 + 2) with (next + 3) by lia.
  replace (g + 1 + 1 + 1 + 1) with (g + 4) by lia.
  split; [reflexivity|].
  unfold range. cbn [map Name Children StartIndex EndIndex].
  split; reflexivity.
Qed.

Lemma utf8_passes_agree_witness :
  exists s item parser',
    parseUTF8String {| reader := [x00; x02; x68; x69; x07]; err := None |}
    = Returned (utf8String s, parser')
    /\ cpEntry noFloats noFloats 0 10
         {| reader := [x01; x00; x02; x68; x69; x07]; err := None |} 0
       = Returned (Entry item (10 + 3 + strlen s) parser' false, 0 + 4)
    /\ map Name (Children item)
       = ["tag: 1"%string;
          cat ["length: "%string; fmt_d (strlen s)];
          cat ["string: "%string; dquote; s; dquote]]
    /\ map range (Children item)
       = [(10, 10 + 1); (10 + 1, 10 + 3); (10 + 3, 10 + 3 + strlen s)].
Proof.
  exact (utf8_passes_agree noFloats noFloats 0 10
           {| reader := [x01; x00; x02; x68; x69; x07]; err := None |} 0
           eq_refl).
Defined.

(* ------------------------------------------------------------------ *)
(** ** The top-level Sections *)





Section TopLevel.

Variable fmt_float32 : Z -> string.
Variable fmt_float64 : Z -> string.





End TopLevel.


(* ------------------------------------------------------------------ *)
(** ** The Code attribute *)

Lemma times_u1_text (pad rest : list byte) :
  times (List.length pad) (rd u1) {| reader := pad ++ rest; err := None |}
  = Returned (tt, {| reader := rest; err := None |}).
Proof.
  induction pad as [|b pad IH]; [reflexivity|].
  cbn [List.length times app]. unfold bind, rd at 1. rewrite u1_cons.
  exact IH.
Qed.

Lemma lift_Returned {S A} (o : outcome A) (s : S) (a : A) (s' : S) :
  lift o s = Returned (a, s') -> s' = s.
Proof. unfold lift. destruct o; intros H; now inversion H. Qed.

Lemma parseHandler_consumes (pool : list ConstantPoolItem)
  (a b c d e f g h : byte) (tail : list byte) (x : ExceptionHandler)
  (cr' : byteParser) :
  parseHandler pool
    {| reader := a :: b :: c :: d :: e :: f :: g :: h :: tail; err := None |}
  = Returned (x, cr') ->
  cr' = {| reader := tail; err := None |}.
Proof.
  intros H. unfold parseHandler in H.
  unfold bind at 1, rd at 1 in H. rewrite u2_cons in H.
  unfold bind at 1, rd at 1 in H. rewrite u2_cons in H.
  unfold bind at 1, rd at 1 in H. rewrite u2_cons in H.
  unfold bind at 1, rd at 1 in H. rewrite u2_cons in H.
  destruct (negb (bigEndian 0 [g; h] =? 0)).
  - bind_inv H. apply lift_Returned in E. subst cr.
    bind_inv H. apply lift_Returned in E. subst cr.
    unfold ret in H. now inversion H.
  - unfold ret in H. now inversion H.
Qed.

Lemma forN_parseHandler_consumes (pool : list ConstantPoolItem) (n : nat) :
  forall handlers tail l cr',
  List.length handlers = (8 * n)%nat ->
  forN n (parseHandler pool) {| reader := handlers ++ tail; err := None |}
  = Returned (l, cr') ->
  cr' = {| reader := tail; err := None |}.
Proof.
  induction n as [|n IH]; intros handlers tail l cr' Hlen H.
  - destruct handlers; [|discriminate Hlen].
    cbn [forN] in H. unfold ret in H. now inversion H.
  - destruct handlers as [|a [|b [|c [|d [|e [|f [|g [|h handlers]]]]]]]];
      try (simpl in Hlen; lia).
    cbn [forN app] in H. bind_inv H. apply parseHandler_consumes in E.
    subst cr. bind_inv H. apply IH in E; [|simpl in Hlen; lia].
    subst cr. unfold ret in H. now inversion H.
Qed.

(** X21: [parseCode] leaves the cursor exactly [length] bytes after the
    start of the attribute.  When the buffer holds the attribute (stack and
    locals, the code with its length, the handler table with its count and
    eight bytes for each handler, and whatever follows up to the declared
    [length]) and [parseCode] returns, the last loop has skipped exactly
    what follows the handler table; the instructions are the code bytes and
    there are as many handlers as the count says. *)
Theorem parseCode_consumes_length (pool : list ConstantPoolItem) (length : Z)
  (s1 s2 l1 l2 c1 c2 c3 c4 h1 h2 : byte)
  (instrs handlers pad rest : list byte) (code : Code) (cr' : byteParser) :
  bigEndian 0 [c1; c2; c3; c4] = len instrs ->
  8 * bigEndian 0 [h1; h2] = len handlers ->
  length = 10 + len instrs + len handlers + len pad ->
  length < 2 ^ 32 ->
  parseCode pool length
    {| reader := s1 :: s2 :: l1 :: l2 :: c1 :: c2 :: c3 :: c4
                 :: instrs ++ h1 :: h2 :: handlers ++ pad ++ rest;
       err := None |}
  = Returned (code, cr') ->
  cr' = {| reader := rest; err := None |}
  /\ maxStack code = bigEndian 0 [s1; s2]
  /\ maxLocals code = bigEndian 0 [l1; l2]
  /\ Instructions code = map byte_val instrs
  /\ len (ExceptionHandlers code) = bigEndian 0 [h1; h2].
Proof.
  intros Hc Hh Hlen Hmax H. unfold parseCode in H.
  unfold bind at 1, rd at 1 in H. rewrite u2_cons in H.
  unfold bind at 1, rd at 1 in H. rewrite u2_cons in H.
  unfold bind at 1, rd at 1 in H. rewrite u4_cons in H.
  rewrite Hc in H. unfold len in H at 1. rewrite Nat2Z.id in H.
  unfold bind at 1 in H. rewrite forN_u1_text in H.
  unfold bind at 1, rd at 1 in H. rewrite u2_cons in H.
  pose proof (bigEndian_nonneg [h1; h2] 0 (Z.le_refl 0)) as Hn.
  bind_inv H. pose proof (forN_length _ _ _ _ _ E) as Hcount.
  apply forN_parseHandler_consumes in E;
    [|unfold len in Hh; lia].
  subst cr.
  replace (Z.to_nat (length
             - uint32 (8 + len instrs + 2 + bigEndian 0 [h1; h2] * 8)))
    with (List.length pad) in H.
  - unfold bind at 1 in H. rewrite times_u1_text in H.
    unfold ret in H. inversion H; subst code cr'.
    cbn [maxStack maxLocals Instructions ExceptionHandlers].
    repeat split. unfold len. rewrite Hcount. lia.
  - unfold uint32. unfold len in *.
    change (2 ^ 32) with 4294967296 in Hmax.
    rewrite Z.mod_small by lia. lia.
Qed.

Lemma parseCode_consumes_length_witness :
  exists code,
    parseCode [] 15
      {| reader := [x00; x02; x00; x01; x00; x00; x00; x01; xb1;
                    x00; x00; x00; x01; x00; x00; x07];
         err := None |}
    = Returned (code, {| reader := [x07]; err := None |})
    /\ maxStack code = 2 /\ maxLocals code = 1
    /\ Instructions code = [177]
    /\ len (ExceptionHandlers code) = 0.
Proof.
  eexists. split; [reflexivity|].
  destruct (parseCode_consumes_length [] 15
              x00 x02 x00 x01 x00 x00 x00 x01 x00 x00
              [xb1] [] [x00; x01; x00; x00] [x07] _ _
              eq_refl eq_refl eq_refl eq_refl eq_refl)
    as (_ & H).
  exact H.
Defined.
